(** * TimepointApi: the in-memory timepoint store of the OHIF viewer

    Shallow embedding of
    [Packages/ohif-measurements/both/configuration/timepoints.js].

    The class keeps a client-side Minimongo collection ([new
    Mongo.Collection(null)]) of timepoint documents, derives read-only views
    from it ([all], [current], [prior], [currentAndPrior], [key], [name],
    [title]) and forwards mutations to data-exchange functions found in a
    module-level [configuration] object.

    Modelling conventions.
    - A document is a record with the fields of the attached timepoint
      schema plus Minimongo's [_id]; documents are schema-valid by typing.
    - [latestDate] is a JavaScript [Date], represented by its integer time
      value.
    - A Minimongo collection is the list of its documents in insertion
      order together with the supply of generated identifiers
      ([Random.id()] is abstracted by a counter).
    - [cursor.fetch()] with a sort specifier is a stable sort.
    - A data-exchange function is represented by the fate of the promise it
      returns; a [then] callback runs exactly when that promise resolves.
    - A JavaScript exception is a [Throw] completion; the state reached
      before the exception is kept. *)

From Stdlib Require Import List String Ascii ZArith Bool Arith Lia.
From Stdlib Require Import Permutation Sorted DecimalString.
Import ListNotations.

Local Open Scope string_scope.
Local Open Scope list_scope.

(** ** Documents *)

Definition DocId := nat.

Record Timepoint : Type := mkTimepoint {
  _id : option DocId;
  timepointId : string;
  patientId : string;
  timepointType : string;
  latestDate : Z;
  studyInstanceUids : list string;
  locked : bool
}.

(** [delete timepoint._id] *)
Definition delete_id (t : Timepoint) : Timepoint :=
  mkTimepoint None (timepointId t) (patientId t) (timepointType t)
              (latestDate t) (studyInstanceUids t) (locked t).

Definition with_id (i : DocId) (t : Timepoint) : Timepoint :=
  mkTimepoint (Some i) (timepointId t) (patientId t) (timepointType t)
              (latestDate t) (studyInstanceUids t) (locked t).

(** The schema fields of a document, i.e. the document without [_id]. *)
Definition fields (t : Timepoint) : Timepoint := delete_id t.

(** ** Completions: normal return or thrown exception *)

Inductive JsError : Type :=
| TypeError (msg : string)
| MinimongoError (msg : string).

Inductive Completion (A : Type) : Type :=
| Return (a : A)
| Throw (e : JsError).
Arguments Return {A} a.
Arguments Throw {A} e.

(** ** Minimongo *)

Module Minimongo.

Record Collection : Type := mkCollection {
  docs : list Timepoint;
  next_id : DocId
}.

(** [new Mongo.Collection(null)] *)
Definition empty : Collection := mkCollection [] 0.

(** The selectors that occur in the class.  A scalar selector is the
    shorthand for a match on [_id]; an [undefined] scalar matches
    nothing.  In a field selector an [undefined] operand only matches a
    document in which the field is missing, which a schema-valid document
    never is. *)
Inductive Selector : Type :=
| SelAll
| SelId (i : option DocId)
| SelTimepointId (v : option string)
| SelTimepointType (v : string)
| SelPatientAndType (p : string) (ty : string)
| SelLatestDateLt (d : Z).

Definition matches (s : Selector) (t : Timepoint) : bool :=
  match s with
  | SelAll => true
  | SelId None => false
  | SelId (Some i) =>
      match _id t with Some j => Nat.eqb i j | None => false end
  | SelTimepointId None => false
  | SelTimepointId (Some v) => String.eqb v (timepointId t)
  | SelTimepointType v => String.eqb v (timepointType t)
  | SelPatientAndType p ty =>
      String.eqb p (patientId t) && String.eqb ty (timepointType t)
  | SelLatestDateLt d => Z.ltb (latestDate t) d
  end.

Inductive SortSpec : Type :=
| Unsorted
| LatestDateAsc      (* sort: { latestDate: 1 } *)
| LatestDateDesc.    (* sort: { latestDate: -1 } *)

(** [precedes s a b]: the comparator of [s] puts [a] strictly before
    [b]. *)
Definition precedes (s : SortSpec) (a b : Timepoint) : bool :=
  match s with
  | Unsorted => false
  | LatestDateAsc => Z.ltb (latestDate a) (latestDate b)
  | LatestDateDesc => Z.ltb (latestDate b) (latestDate a)
  end.

(** Stable sort: [x] comes from a position before every element of [l],
    so it is placed before the first element that does not strictly
    precede it. *)
Fixpoint insert_sorted (s : SortSpec) (x : Timepoint) (l : list Timepoint)
  : list Timepoint :=
  match l with
  | [] => [x]
  | y :: l' =>
      if precedes s y x then y :: insert_sorted s x l' else x :: l
  end.

Definition sort_docs (s : SortSpec) (l : list Timepoint) : list Timepoint :=
  fold_right (insert_sorted s) [] l.

(** [collection.find(selector, { sort }).fetch()] *)
Definition find (sel : Selector) (s : SortSpec) (c : Collection)
  : list Timepoint :=
  sort_docs s (filter (matches sel) (docs c)).

(** [collection.findOne(selector, { sort })] *)
Definition findOne (sel : Selector) (s : SortSpec) (c : Collection)
  : option Timepoint :=
  hd_error (find sel s c).

Definition has_id (i : DocId) (c : Collection) : bool :=
  existsb (matches (SelId (Some i))) (docs c).

(** [collection.insert(doc)]: a document without [_id] receives a
    generated one; a document that carries an [_id] keeps it, and the
    insertion is refused when the collection already holds that [_id]. *)
Definition insert (t : Timepoint) (c : Collection) : Completion Collection :=
  match _id t with
  | None =>
      Return (mkCollection (docs c ++ [with_id (next_id c) t])
                           (S (next_id c)))
  | Some i =>
      if has_id i c
      then Throw (MinimongoError "Duplicate _id")
      else Return (mkCollection (docs c ++ [t]) (Nat.max (next_id c) (S i)))
  end.

(** [collection.remove(selector)] *)
Definition remove (sel : Selector) (c : Collection) : Collection :=
  mkCollection (filter (fun t => negb (matches sel t)) (docs c)) (next_id c).

(** A [$set] modifier, field by field. *)
Inductive FieldSet : Type :=
| SetTimepointId (v : string)
| SetPatientId (v : string)
| SetTimepointType (v : string)
| SetLatestDate (v : Z)
| SetStudyInstanceUids (v : list string)
| SetLocked (v : bool).

Definition Modifier := list FieldSet.

Definition set_field (t : Timepoint) (f : FieldSet) : Timepoint :=
  match f with
  | SetTimepointId v =>
      mkTimepoint (_id t) v (patientId t) (timepointType t) (latestDate t)
                  (studyInstanceUids t) (locked t)
  | SetPatientId v =>
      mkTimepoint (_id t) (timepointId t) v (timepointType t) (latestDate t)
                  (studyInstanceUids t) (locked t)
  | SetTimepointType v =>
      mkTimepoint (_id t) (timepointId t) (patientId t) v (latestDate t)
                  (studyInstanceUids t) (locked t)
  | SetLatestDate v =>
      mkTimepoint (_id t) (timepointId t) (patientId t) (timepointType t) v
                  (studyInstanceUids t) (locked t)
  | SetStudyInstanceUids v =>
      mkTimepoint (_id t) (timepointId t) (patientId t) (timepointType t)
                  (latestDate t) v (locked t)
  | SetLocked v =>
      mkTimepoint (_id t) (timepointId t) (patientId t) (timepointType t)
                  (latestDate t) (studyInstanceUids t) v
  end.

Definition modify (m : Modifier) (t : Timepoint) : Timepoint :=
  fold_left set_field m t.

(** [collection.update(selector, modifier)] without [multi]: only the
    first matching document, in the collection's own order, changes. *)
Fixpoint update_first (sel : Selector) (m : Modifier) (l : list Timepoint)
  : list Timepoint :=
  match l with
  | [] => []
  | t :: l' =>
      if matches sel t then modify m t :: l' else t :: update_first sel m l'
  end.

Definition update (sel : Selector) (m : Modifier) (c : Collection)
  : Collection :=
  mkCollection (update_first sel m (docs c)) (next_id c).

(** Every stored document has an [_id], no two share one, and the
    identifier supply is ahead of all of them. *)
Definition wf (c : Collection) : Prop :=
  NoDup (map _id (docs c)) /\
  Forall (fun t => exists i, _id t = Some i /\ i < next_id c) (docs c).

End Minimongo.

Import Minimongo.

(** ** The configuration and the outside world *)

(** What becomes of the promise returned by a data-exchange function. *)
Inductive Promise (A : Type) : Type :=
| Resolved (a : A)
| Rejected
| Pending.
Arguments Resolved {A} a.
Arguments Rejected {A}.
Arguments Pending {A}.

(** The [dataExchange] object: each function may be missing.  The filter
    object [{ timepointId }] handed to [update] and [remove] is
    represented by its [timepointId]. *)
Module DataExchange.
Record t : Type := mk {
  retrieve : option (option string -> Promise (list Timepoint));
  store : option (list Timepoint -> Promise unit);
  update : option (string -> Minimongo.Modifier -> Promise unit);
  remove : option (string -> Promise unit);
  disassociate : option (list string -> string -> Promise unit)
}.
End DataExchange.

(** The module-level [configuration] object; it starts as [{}], so
    [dataExchange] itself may be missing. *)
Record Configuration : Type := mkConfiguration {
  dataExchange : option DataExchange.t
}.

Inductive LogMessage : Type :=
| Text (s : string)
| Data (d : list Timepoint)
| JsonTimepointData (timepointId : string)
| JsonQuery (q : Modifier).

Inductive LogEntry : Type :=
| Info (m : LogMessage)
| Warn (m : LogMessage).

Record TimepointApi : Type := mkApi {
  currentTimepointId : option string;
  timepoints : Collection
}.

Record World : Type := mkWorld {
  this : TimepointApi;
  console : list LogEntry
}.

(** ** State and exception monad of the methods *)

Definition M (A : Type) : Type := World -> World * Completion A.

Definition ret {A} (a : A) : M A := fun w => (w, Return a).

Definition throw {A} (e : JsError) : M A := fun w => (w, Throw e).

Definition bind {A B} (m : M A) (k : A -> M B) : M B :=
  fun w =>
    match m w with
    | (w', Return a) => k a w'
    | (w', Throw e) => (w', Throw e)
    end.

Notation "x <- m ;; k" := (bind m (fun x => k))
  (at level 61, m at next level, right associativity).
Notation "m ;;; k" := (bind m (fun _ => k))
  (at level 61, right associativity).

Definition log (e : LogEntry) : M unit :=
  fun w => (mkWorld (this w) (console w ++ [e]), Return tt).

Definition get_timepoints : M Collection :=
  fun w => (w, Return (timepoints (this w))).

Definition set_timepoints (c : Collection) : M unit :=
  fun w => (mkWorld (mkApi (currentTimepointId (this w)) c) (console w),
            Return tt).

Definition get_this : M TimepointApi := fun w => (w, Return (this w)).

(** [promise.then(callback)]: the callback runs when the promise resolves;
    an exception inside it rejects the derived promise. *)
Definition then_ {A} (p : Promise A) (callback : A -> M unit) : M (Promise unit) :=
  match p with
  | Resolved a =>
      fun w =>
        match callback a w with
        | (w', Return _) => (w', Return (Resolved tt))
        | (w', Throw _) => (w', Return Rejected)
        end
  | Rejected => ret Rejected
  | Pending => ret Pending
  end.

(** Reading a property of [configuration.dataExchange]. *)
Definition getDataExchange (configuration : Configuration) : M DataExchange.t :=
  match dataExchange configuration with
  | Some de => ret de
  | None => throw (TypeError "Cannot read property of undefined")
  end.

(** ** The class *)

Definition truthy (s : option string) : bool :=
  match s with
  | Some EmptyString => false
  | Some _ => true
  | None => false
  end.

Definition constructor (currentTimepointId : option string) : TimepointApi :=
  mkApi (if truthy currentTimepointId then currentTimepointId else None)
        Minimongo.empty.

(** The [_.each] loop of [retrieveTimepoints]. *)
Fixpoint insert_each (timepointData : list Timepoint) : M unit :=
  match timepointData with
  | [] => ret tt
  | timepoint :: rest =>
      c <- get_timepoints ;;
      match insert (delete_id timepoint) c with
      | Return c' => set_timepoints c' ;;; insert_each rest
      | Throw e => throw e
      end
  end.

(** The result is [None] for [undefined], otherwise the state of the
    returned promise: it resolves at the end of the callback and is never
    rejected. *)
Definition retrieveTimepoints (configuration : Configuration)
    (patientId : option string) : M (option (Promise unit)) :=
  de <- getDataExchange configuration ;;
  match DataExchange.retrieve de with
  | None => ret None
  | Some retrievalFn =>
      p <- then_ (retrievalFn patientId) (fun timepointData =>
             log (Info (Text "Timepoint data retrieval")) ;;;
             log (Info (Data timepointData)) ;;;
             insert_each timepointData) ;;
      ret (Some match p with Resolved _ => Resolved tt | _ => Pending end)
  end.

Definition storeTimepoints (configuration : Configuration) : M unit :=
  de <- getDataExchange configuration ;;
  match DataExchange.store de with
  | None => ret tt
  | Some storeFn =>
      c <- get_timepoints ;;
      let timepointData := find SelAll Unsorted c in
      log (Info (Text "Preparing to store timepoints")) ;;;
      log (Info (Data timepointData)) ;;;
      _ <- then_ (storeFn timepointData) (fun _ =>
             log (Info (Text "Timepoint storage completed"))) ;;
      ret tt
  end.

Definition disassociateStudy (configuration : Configuration)
    (timepointIds : list string) (studyInstanceUid : string) : M unit :=
  de <- getDataExchange configuration ;;
  match DataExchange.disassociate de with
  | None => throw (TypeError "disassociateFn is not a function")
  | Some disassociateFn =>
      _ <- then_ (disassociateFn timepointIds studyInstanceUid) (fun _ =>
             log (Info (Text "Disassociation completed")) ;;;
             c <- get_timepoints ;;
             set_timepoints (remove SelAll c) ;;;
             _ <- retrieveTimepoints configuration None ;;
             ret tt) ;;
      ret tt
  end.

Definition removeTimepoint (configuration : Configuration)
    (timepointId : string) : M unit :=
  de <- getDataExchange configuration ;;
  match DataExchange.remove de with
  | None => ret tt
  | Some removeFn =>
      log (Info (Text "Preparing to remove timepoint")) ;;;
      log (Info (JsonTimepointData timepointId)) ;;;
      _ <- then_ (removeFn timepointId) (fun _ =>
             log (Info (Text "Timepoint removal completed")) ;;;
             c <- get_timepoints ;;
             set_timepoints (remove (SelTimepointId (Some timepointId)) c)) ;;
      ret tt
  end.

Definition updateTimepoint (configuration : Configuration)
    (timepointId : string) (query : Modifier) : M unit :=
  de <- getDataExchange configuration ;;
  match DataExchange.update de with
  | None => ret tt
  | Some updateFn =>
      log (Info (Text "Preparing to update timepoint")) ;;;
      log (Info (JsonTimepointData timepointId)) ;;;
      log (Info (JsonQuery query)) ;;;
      _ <- then_ (updateFn timepointId query) (fun _ =>
             log (Info (Text "Timepoint updated completed")) ;;;
             c <- get_timepoints ;;
             set_timepoints
               (update (SelTimepointId (Some timepointId)) query c)) ;;
      ret tt
  end.

Definition all (api : TimepointApi) : list Timepoint :=
  find SelAll LatestDateDesc (timepoints api).

Definition current (api : TimepointApi) : option Timepoint :=
  findOne (SelTimepointId (currentTimepointId api)) Unsorted (timepoints api).

Definition lock : M unit :=
  api <- get_this ;;
  match current api with
  | None => ret tt
  | Some current =>
      set_timepoints
        (update (SelId (_id current)) [SetLocked true] (timepoints api))
  end.

Definition prior (api : TimepointApi) : option Timepoint :=
  match current api with
  | None => None
  | Some current =>
      findOne (SelLatestDateLt (latestDate current)) LatestDateDesc
              (timepoints api)
  end.

(** [a !== b] on [_id] values *)
Definition id_neq (a b : option DocId) : bool :=
  match a, b with
  | Some i, Some j => negb (Nat.eqb i j)
  | None, None => false
  | _, _ => true
  end.

Definition currentAndPrior (api : TimepointApi) : list Timepoint :=
  let timepoints := [] in
  let current := current api in
  let timepoints :=
    match current with Some c => timepoints ++ [c] | None => timepoints end in
  let prior := prior api in
  match current, prior with
  | Some c, Some p =>
      if id_neq (_id p) (_id c) then timepoints ++ [p] else timepoints
  | _, _ => timepoints
  end.

Definition baseline (api : TimepointApi) : option Timepoint :=
  findOne (SelTimepointType "baseline") Unsorted (timepoints api).

(** The [_.each(all, (timepoint, index) => ...)] loop of [key]; [len] is
    [all.length]. *)
Fixpoint key_each (len : Z) (index : Z) (all : list Timepoint)
    (result : Collection) : Completion Collection :=
  match all with
  | [] => Return result
  | timepoint :: rest =>
      if (index <? 2)%Z || (index =? len - 1)%Z
      then match insert timepoint result with
           | Return result' => key_each len (index + 1) rest result'
           | Throw e => Throw e
           end
      else key_each len (index + 1) rest result
  end.

Definition key (api : TimepointApi) : Completion (list Timepoint) :=
  let result := Minimongo.empty in
  let all := all api in
  match key_each (Z.of_nat (List.length all)) 0 all result with
  | Return result => Return (find SelAll Unsorted result)
  | Throw e => Throw e
  end.

(** [array.indexOf(x)] *)
Fixpoint indexOf (x : string) (l : list string) : Z :=
  match l with
  | [] => -1
  | y :: l' =>
      if String.eqb y x then 0
      else let r := indexOf x l' in if (r <? 0)%Z then -1 else r + 1
  end%Z.

(** Decimal rendering of a number in a string concatenation. *)
Definition number_to_string (n : Z) : string :=
  NilZero.string_of_int (Z.to_int n).

Definition name (timepoint : Timepoint) : M (option string) :=
  if String.eqb (timepointType timepoint) "baseline"
  then ret (Some "Baseline")
  else
    c <- get_timepoints ;;
    let followupTimepoints :=
      find (SelPatientAndType (patientId timepoint) (timepointType timepoint))
           LatestDateAsc c in
    let followupTimepointIds := map timepointId followupTimepoints in
    let index := (indexOf (timepointId timepoint) followupTimepointIds + 1)%Z in
    if (index =? 0)%Z
    then
      log (Warn (Text
        "Current follow-up was not in the list of relevant follow-ups?")) ;;;
      ret None
    else ret (Some ("Follow-up " ++ number_to_string index)%string).

(** [a === b] with [a] possibly [undefined] *)
Definition strict_eq (a : option string) (b : string) : bool :=
  match a with
  | Some s => String.eqb s b
  | None => false
  end.

(** The [for] loop of [title] over the remaining entries of [all], with
    the loop variables [index] and [currentIndex] ([None] for [null]); the
    result is the value of [index] when the loop is left. *)
Fixpoint title_loop (currentTimepointId : option string) (target : string)
    (all : list Timepoint) (index : Z) (currentIndex : option Z) : Z :=
  match all with
  | [] => index
  | currentTimepoint :: rest =>
      let currentIndex :=
        if strict_eq currentTimepointId (timepointId currentTimepoint)
        then Some 0%Z else currentIndex in
      let '(index, currentIndex) :=
        match currentIndex with
        | Some n => (n, Some (n + 1)%Z)
        | None => (index, None)
        end in
      if String.eqb (timepointId currentTimepoint) target
      then index
      else title_loop currentTimepointId target rest index currentIndex
  end.

(** [states[index] || ''] *)
Definition states (index : Z) : string :=
  if (index =? 0)%Z then "(Current)"
  else if (index =? 1)%Z then "(Prior)"
  else "".

(** A value interpolated in a template literal. *)
Definition interpolate (v : option string) : string :=
  match v with
  | Some s => s
  | None => "undefined"
  end.

Definition title (timepoint : Timepoint) : M string :=
  timepointName <- name timepoint ;;
  api <- get_this ;;
  let all := all api in
  let index :=
    title_loop (currentTimepointId api) (timepointId timepoint) all (-1) None in
  let parenthesis := states index in
  ret (interpolate timepointName ++ " " ++ parenthesis)%string.

(** ** The remaining members of the class and a caller *)

(** [_.extend(configuration, config)]: the keys of [config] overwrite
    those of [configuration]; the only key the class reads is
    [dataExchange]. *)
Definition setConfiguration (configuration config : Configuration)
  : Configuration :=
  mkConfiguration
    match dataExchange config with
    | Some de => Some de
    | None => dataExchange configuration
    end.

Definition getConfiguration (configuration : Configuration) : Configuration :=
  configuration.

(** [_.contains(list, value)] *)
Definition contains (l : list string) (value : string) : bool :=
  existsb (String.eqb value) l.

(** The [_.each] loop of [study]. *)
Fixpoint study_each (studyInstanceUid : string) (all : list Timepoint)
    (result : Collection) : Completion Collection :=
  match all with
  | [] => Return result
  | timepoint :: rest =>
      if contains (studyInstanceUids timepoint) studyInstanceUid
      then match insert timepoint result with
           | Return result' => study_each studyInstanceUid rest result'
           | Throw e => Throw e
           end
      else study_each studyInstanceUid rest result
  end.

Definition study (api : TimepointApi) (studyInstanceUid : string)
  : Completion (list Timepoint) :=
  let result := Minimongo.empty in
  match study_each studyInstanceUid (all api) result with
  | Return result => Return (find SelAll Unsorted result)
  | Throw e => Throw e
  end.

(** The [timepointName] helper of the viewport overlay: [timepointApi] is
    [StudyList.timepointApi], which may be missing, [studyInstanceUid]
    comes from the template data, and [logged] is the log so far. *)
Definition timepointName (timepointApi : option TimepointApi)
    (studyInstanceUid : string) (logged : list LogEntry)
  : list LogEntry * Completion (option string) :=
  match timepointApi with
  | None => (logged, Return None)
  | Some api =>
      match study api studyInstanceUid with
      | Throw e => (logged, Throw e)
      | Return [] => (logged, Return None)
      | Return (timepoint :: _) =>
          let '(w, r) := name timepoint (mkWorld api logged) in
          (console w, r)
      end
  end.

(** ** The [formItem] mixin

    The part of the form-field controller that does not depend on the
    page: the search for the enclosing form, the resolution of the API,
    the error state kept on the wrapper element and the validation of the
    field.  A component knows its parent; the chain of parents is finite.
    The wrapper is the jQuery set [component.$wrapper], empty until the
    component is rendered and a single element afterwards; of that element
    the classes, the [data-error] attribute and the visibility matter.
    The schema of a form is given by its two functions. *)

Module FormItem.

Record Schema : Type := mkSchema {
  validateOne : string -> string -> bool;   (* key, value of the field *)
  keyErrorMessage : string -> string
}.

Record Wrapper : Type := mkWrapper {
  classes : list string;
  data_error : option string;
  visible : bool
}.

(** What a component holds itself: [isForm], [instance.data.api] (the
    API object, represented by a name), the [schema] of a form,
    [instance.data.pathKey], the value [component.value()] reads, and the
    wrapper. *)
Record Fields : Type := mkFields {
  isForm_ : bool;
  api_ : option string;
  schema_ : option Schema;
  pathKey_ : option string;
  value_ : string;
  wrapper_ : option Wrapper
}.

(** A component without parent, or one registered in a parent. *)
Inductive Component : Type :=
| Detached (own : Fields)
| Attached (own : Fields) (parent : Component).

Definition own (c : Component) : Fields :=
  match c with
  | Detached f => f
  | Attached f _ => f
  end.

Definition isForm (c : Component) : bool := isForm_ (own c).
Definition api (c : Component) : option string := api_ (own c).
Definition schema (c : Component) : option Schema := schema_ (own c).
Definition pathKey (c : Component) : option string := pathKey_ (own c).
Definition value (c : Component) : string := value_ (own c).
Definition wrapper (c : Component) : option Wrapper := wrapper_ (own c).

Definition parent (c : Component) : option Component :=
  match c with
  | Detached _ => None
  | Attached _ p => Some p
  end.

(** [component.getForm()]: the loop steps to the parent first, so the
    component itself is never the answer. *)
Fixpoint getForm (component : Component) : option Component :=
  match component with
  | Detached _ => None
  | Attached _ currentComponent =>
      if isForm currentComponent then Some currentComponent
      else getForm currentComponent
  end.

(** [component.getApi()].  The call [form.getApi()] is made on the
    component [getForm] finds; [seek] is that search, written out on the
    spot so that the recursion is seen to follow the parents. *)
Fixpoint getApi (component : Component) : option string :=
  match api component with
  | Some a => Some a
  | None =>
      if isForm component then None
      else
        match component with
        | Detached _ => None
        | Attached _ above =>
            (fix seek (currentComponent : Component) : option string :=
               if isForm currentComponent then getApi currentComponent
               else match currentComponent with
                    | Detached _ => None
                    | Attached _ next => seek next
                    end) above
        end
  end.

(** [$wrapper.toggleClass(name, flag)] *)
Definition toggleClass (name : string) (flag : bool) (w : Wrapper) : Wrapper :=
  let others := filter (fun c => negb (String.eqb c name)) (classes w) in
  mkWrapper (if flag then
               if existsb (String.eqb name) (classes w)
               then classes w else classes w ++ [name]
             else others)
            (data_error w) (visible w).

(** [component.state(state, flag)] *)
Definition state (name : string) (flag : bool) (w : option Wrapper)
  : option Wrapper :=
  option_map (toggleClass ("state-" ++ name) flag) w.

(** [component.error(errorMessage)], with [None] for [false]: a jQuery
    call on the empty set does nothing. *)
Definition error (errorMessage : option string) (w : option Wrapper)
  : option Wrapper :=
  let w := state "error" (truthy errorMessage) w in
  if truthy errorMessage
  then option_map (fun e => mkWrapper (classes e) errorMessage (visible e)) w
  else option_map (fun e => mkWrapper (classes e) None (visible e)) w.

(** [$wrapper.is(':visible')] *)
Definition is_visible (w : option Wrapper) : bool :=
  match w with
  | Some e => visible e
  | None => false
  end.

Record Validation : Type := mkValidation {
  result : bool;                   (* what [validate()] returns *)
  wrapper_after : option Wrapper;  (* the wrapper afterwards *)
  validationRan : bool             (* whether [form.validationRan()] ran *)
}.

(** [component.validate()] *)
Definition validate (component : Component) : Validation :=
  let form := getForm component in
  let schema := match form with Some f => schema f | None => None end in
  let key := pathKey component in
  let not_needed := mkValidation true (wrapper component) false in
  if negb (truthy key) then not_needed
  else
    match schema, key with
    | Some schema, Some key =>
        if negb (is_visible (wrapper component)) then not_needed
        else
          let validationResult := validateOne schema key (value component) in
          if negb validationResult
          then mkValidation false
                 (error (Some (keyErrorMessage schema key))
                        (wrapper component))
                 true
          else mkValidation true (error None (wrapper component)) true
    | _, _ => not_needed
    end.

(** The parents of a component, nearest first. *)
Fixpoint ancestors (c : Component) : list Component :=
  match c with
  | Detached _ => []
  | Attached _ p => p :: ancestors p
  end.

Definition has_class (name : string) (w : option Wrapper) : Prop :=
  match w with
  | Some e => In name (classes e)
  | None => False
  end.

Definition error_attribute (w : option Wrapper) : option string :=
  match w with
  | Some e => data_error e
  | None => None
  end.

End FormItem.

(** ** Auxiliary notions used in the statements *)

(** [a] may stand before [b] in a list sorted by [s]. *)
Definition in_order (s : SortSpec) (a b : Timepoint) : Prop :=
  precedes s b a = false.

(** The documents that successive insertions of [data] store when the
    identifier supply stands at [n]: each one without the [_id] it came
    with and with a generated one instead. *)
Fixpoint assign_ids (n : DocId) (data : list Timepoint) : list Timepoint :=
  match data with
  | [] => []
  | t :: rest => with_id n (delete_id t) :: assign_ids (S n) rest
  end.

(** The collection held by the store after running a method. *)
Definition timepoints_after {A} (m : M A) (w : World) : Collection :=
  timepoints (this (fst (m w))).

Definition completion_of {A} (m : M A) (w : World) : Completion A :=
  snd (m w).

(** The data-model invariant: at most one record per [timepointId]. *)
Definition unique_timepointIds (api : TimepointApi) : Prop :=
  NoDup (map timepointId (docs (timepoints api))).

(** The configured [currentTimepointId] designates no stored record. *)
Definition no_current_record (api : TimepointApi) : Prop :=
  currentTimepointId api = None \/
  forall t, In t (all api) -> currentTimepointId api <> Some (timepointId t).

(** Position [i] of a list of [n] entries is one that [key()] keeps: the
    first, the second or the final one. *)
Definition key_position (n i : nat) : bool :=
  Nat.eqb i 0 || Nat.eqb i 1 || Nat.eqb (S i) n.

(** The entries of [l] found at the positions accepted by [keep], where
    the first entry of [l] has position [i]. *)
Definition entries_at (keep : nat -> bool) (i : nat) (l : list Timepoint)
  : list Timepoint :=
  map snd (filter (fun p => keep (fst p)) (combine (seq i (List.length l)) l)).

Definition key_entries (l : list Timepoint) : list Timepoint :=
  entries_at (key_position (List.length l)) 0 l.

Definition is_baseline (t : Timepoint) : bool :=
  String.eqb (timepointType t) "baseline".

(** The follow-ups among which [name] ranks [t]: the stored records of
    the same patient and type, earliest [latestDate] first. *)
Definition relevant_followups (api : TimepointApi) (t : Timepoint)
  : list Timepoint :=
  find (SelPatientAndType (patientId t) (timepointType t)) LatestDateAsc
       (timepoints api).

(** [x] has 1-based rank [k] in [l]: it stands at position [k] counted
    from 1, and at no earlier position. *)
Definition has_rank (x : string) (l : list string) (k : nat) : Prop :=
  exists i, k = S i /\ nth_error l i = Some x /\
            forall j, j < i -> nth_error l j <> Some x.

Definition warning_not_in_list : LogEntry :=
  Warn (Text "Current follow-up was not in the list of relevant follow-ups?").

(** The suffix [title] gives to the record at position [j] of [all()]
    when the current record stands at position [i]. *)
Definition suffix_at (i j : nat) : string :=
  if Nat.eqb j i then "(Current)"
  else if Nat.eqb j (S i) then "(Prior)"
  else "".

(** The states a [TimepointApi] object goes through: it is constructed,
    and then its methods run, under whatever configuration is in force. *)
Inductive reachable : World -> Prop :=
| reach_constructor cur :
    reachable (mkWorld (constructor cur) [])
| reach_retrieveTimepoints cfg pid w :
    reachable w -> reachable (fst (retrieveTimepoints cfg pid w))
| reach_storeTimepoints cfg w :
    reachable w -> reachable (fst (storeTimepoints cfg w))
| reach_disassociateStudy cfg ids uid w :
    reachable w -> reachable (fst (disassociateStudy cfg ids uid w))
| reach_removeTimepoint cfg tid w :
    reachable w -> reachable (fst (removeTimepoint cfg tid w))
| reach_updateTimepoint cfg tid q w :
    reachable w -> reachable (fst (updateTimepoint cfg tid q w))
| reach_lock w :
    reachable w -> reachable (fst (lock w))
| reach_name t w :
    reachable w -> reachable (fst (name t w))
| reach_title t w :
    reachable w -> reachable (fst (title t w)).

(** No record of [l] up to position [j] matches [cur], the configured
    [currentTimepointId]. *)
Definition unmatched_upto (cur : option string) (l : list Timepoint)
    (j : nat) : Prop :=
  forall k y, k <= j -> nth_error l k = Some y ->
              strict_eq cur (timepointId y) = false.

(** ** Sample data *)

Module Samples.

Definition tp (tid ty : string) (date : Z) : Timepoint :=
  mkTimepoint None tid "patient-1" ty date [] false.

(** A data-exchange object whose [retrieve] resolves with [data]. *)
Definition retrieving (data : list Timepoint) : Configuration :=
  mkConfiguration
    (Some (DataExchange.mk (Some (fun _ => Resolved data))
                          None None None None)).

(** A data-exchange object with every function present and every
    promise resolving; [retrieve] yields no record. *)
Definition exchange : DataExchange.t :=
  DataExchange.mk (Some (fun _ => Resolved []))
                 (Some (fun _ => Resolved tt))
                 (Some (fun _ _ => Resolved tt))
                 (Some (fun _ => Resolved tt))
                 (Some (fun _ _ => Resolved tt)).

Definition exchanging : Configuration := mkConfiguration (Some exchange).

(** The store right after construction. *)
Definition fresh (currentTimepointId : option string) : World :=
  mkWorld (constructor currentTimepointId) [].

(** The store after one successful retrieval of [data]. *)
Definition loaded (currentTimepointId : option string)
    (data : list Timepoint) : World :=
  fst (retrieveTimepoints (retrieving data) None (fresh currentTimepointId)).

Definition visits : list Timepoint :=
  [ tp "tp-base" "baseline" 100;
    tp "tp-f1" "followup" 200;
    tp "tp-f2" "followup" 300;
    tp "tp-f3" "followup" 400 ].

(** A baseline visit dated between two follow-ups. *)
(** Follow-ups dated January, March and June of one year, supplied out
    of order, after a baseline. *)
Definition jan_mar_jun : list Timepoint :=
  [ tp "tp-base" "baseline" 20161201;
    tp "tp-jun" "followup" 20170615;
    tp "tp-jan" "followup" 20170110;
    tp "tp-mar" "followup" 20170320 ].

(** Two records under one [timepointId], around the current one. *)
Definition repeated_id : list Timepoint :=
  [ tp "tp-x" "followup" 300;
    tp "tp-cur" "followup" 200;
    tp "tp-x" "followup" 100 ].

Definition late_baseline : list Timepoint :=
  [ tp "tp-f1" "followup" 100;
    tp "tp-base" "baseline" 250;
    tp "tp-f2" "followup" 300;
    tp "tp-f3" "followup" 400 ].

End Samples.

(** The record [t] once locked. *)
Definition locked_copy (t : Timepoint) : Timepoint :=
  modify [SetLocked true] t.

(** The number of stored records of the patient and type of [t] that are
    dated strictly before [t]. *)
Definition earlier_peers (api : TimepointApi) (t : Timepoint) : nat :=
  List.length
    (filter (fun q => String.eqb (patientId t) (patientId q) &&
                      String.eqb (timepointType t) (timepointType q) &&
                      Z.ltb (latestDate q) (latestDate t))
            (docs (timepoints api))).

(** Sample visits linked to imaging studies. *)
Module Studies.

Definition visit (tid ty : string) (date : Z) (uids : list string)
  : Timepoint :=
  mkTimepoint None tid "patient-1" ty date uids false.

Definition visits : list Timepoint :=
  [ visit "tp-base" "baseline" 100 ["1.2.1"];
    visit "tp-f1" "followup" 200 ["1.2.2"; "1.2.3"];
    visit "tp-f2" "followup" 300 ["1.2.3"] ].

Definition world : World := Samples.loaded (Some "tp-f2") visits.

Definition api : TimepointApi := this world.

End Studies.

(** * Properties *)

(** ** Sorting *)

Section Sorting.

Variable s : SortSpec.

Lemma precedes_asym a b : precedes s a b = true -> precedes s b a = false.
Proof.
  destruct s; simpl; intros H; try discriminate;
    apply Z.ltb_lt in H; apply Z.ltb_ge; lia.
Qed.

Lemma in_order_trans a b c :
  in_order s a b -> in_order s b c -> in_order s a c.
Proof.
  unfold in_order; destruct s; simpl; auto;
    rewrite !Z.ltb_ge; lia.
Qed.

Lemma insert_sorted_perm x l : Permutation (insert_sorted s x l) (x :: l).
Proof.
  induction l as [|y l IH]; simpl; auto.
  destruct (precedes s y x); auto.
  rewrite IH. apply perm_swap.
Qed.

Lemma sort_docs_perm l : Permutation (sort_docs s l) l.
Proof.
  induction l as [|x l IH]; simpl; auto.
  rewrite insert_sorted_perm. now constructor.
Qed.

Lemma insert_sorted_sorted x l :
  StronglySorted (in_order s) l ->
  StronglySorted (in_order s) (insert_sorted s x l).
Proof.
  induction 1 as [|y l Hs IH Hy]; simpl.
  - repeat constructor.
  - destruct (precedes s y x) eqn:E.
    + constructor; auto.
      eapply Permutation_Forall.
      * symmetry; apply insert_sorted_perm.
      * constructor; auto. now apply precedes_asym.
    + constructor.
      * now constructor.
      * constructor; auto.
        eapply Forall_impl; [|exact Hy].
        intros z Hz. now apply in_order_trans with y.
Qed.

Lemma sort_docs_sorted l : StronglySorted (in_order s) (sort_docs s l).
Proof.
  induction l; simpl; [constructor | now apply insert_sorted_sorted].
Qed.

Lemma sort_docs_In t l : In t (sort_docs s l) <-> In t l.
Proof.
  split; apply Permutation_in;
    [apply sort_docs_perm | symmetry; apply sort_docs_perm].
Qed.

Lemma sort_docs_length l : List.length (sort_docs s l) = List.length l.
Proof. apply Permutation_length, sort_docs_perm. Qed.

(** Sorting only looks at [latestDate]. *)
Lemma insert_sorted_map (f : Timepoint -> Timepoint) x l :
  (forall t, latestDate (f t) = latestDate t) ->
  map f (insert_sorted s x l) = insert_sorted s (f x) (map f l).
Proof.
  intros Hf. induction l as [|y l IH]; simpl; auto.
  replace (precedes s (f y) (f x)) with (precedes s y x)
    by (destruct s; simpl; now rewrite ?Hf).
  destruct (precedes s y x); simpl; now rewrite ?IH.
Qed.

Lemma sort_docs_map (f : Timepoint -> Timepoint) l :
  (forall t, latestDate (f t) = latestDate t) ->
  map f (sort_docs s l) = sort_docs s (map f l).
Proof.
  intros Hf. induction l as [|x l IH]; simpl; auto.
  now rewrite insert_sorted_map, IH.
Qed.

(** A sorted list is not rearranged: the sort is idempotent. *)
Lemma insert_sorted_head x l :
  Forall (in_order s x) l -> insert_sorted s x l = x :: l.
Proof.
  destruct 1 as [|y l Hy _]; simpl; auto.
  unfold in_order in Hy. now rewrite Hy.
Qed.

Lemma sort_docs_id l : StronglySorted (in_order s) l -> sort_docs s l = l.
Proof.
  induction 1 as [|x l Hs IH Hx]; simpl; auto.
  rewrite IH. now apply insert_sorted_head.
Qed.

End Sorting.

Lemma sort_docs_unsorted l : sort_docs Unsorted l = l.
Proof. induction l as [|x l IH]; simpl; auto. rewrite IH. now destruct l. Qed.

Lemma filter_all l : filter (matches SelAll) l = l.
Proof. induction l; simpl; congruence. Qed.

Lemma all_eq api : all api = sort_docs LatestDateDesc (docs (timepoints api)).
Proof. unfold all, find. now rewrite filter_all. Qed.

Lemma in_all api t : In t (all api) <-> In t (docs (timepoints api)).
Proof. rewrite all_eq. apply sort_docs_In. Qed.

(** [all()] is ordered by [latestDate], most recent first. *)
Lemma all_descending api :
  StronglySorted (fun a b => (latestDate b <= latestDate a)%Z) (all api).
Proof.
  rewrite all_eq.
  induction (sort_docs_sorted LatestDateDesc (docs (timepoints api)))
    as [|a l Hs IH Ha]; constructor; auto.
  eapply Forall_impl; [|exact Ha].
  intros b; unfold in_order; simpl. now rewrite Z.ltb_ge.
Qed.

(** ** Retrieval *)

Lemma with_id_delete_id n t : with_id n (delete_id t) = with_id n t.
Proof. reflexivity. Qed.

Lemma fields_with_id n t : fields (with_id n t) = fields t.
Proof. reflexivity. Qed.

Lemma latestDate_fields t : latestDate (fields t) = latestDate t.
Proof. reflexivity. Qed.

Lemma fields_assign_ids n data :
  map fields (assign_ids n data) = map fields data.
Proof.
  revert n; induction data as [|t data IH]; intros n; simpl; auto.
  now rewrite IH.
Qed.

Lemma assign_ids_length n data :
  List.length (assign_ids n data) = List.length data.
Proof. revert n; induction data; intros; simpl; auto. Qed.

(** The insertion loop appends the fetched documents, in the order they
    were supplied, and never fails. *)
Lemma insert_each_spec data : forall w,
  insert_each data w =
  (mkWorld
     (mkApi (currentTimepointId (this w))
        (mkCollection
           (docs (timepoints (this w)) ++
            assign_ids (next_id (timepoints (this w))) data)
           (List.length data + next_id (timepoints (this w)))))
     (console w),
   Return tt).
Proof.
  induction data as [|t data IH]; intros [[cur [ds n]] out].
  - unfold insert_each, ret; simpl. now rewrite app_nil_r.
  - simpl. unfold bind, get_timepoints, set_timepoints; simpl.
    rewrite IH; simpl. rewrite <- app_assoc; simpl.
    repeat f_equal. lia.
Qed.

Lemma retrieveTimepoints_resolved cfg de retrievalFn patientId data w :
  dataExchange cfg = Some de ->
  DataExchange.retrieve de = Some retrievalFn ->
  retrievalFn patientId = Resolved data ->
  retrieveTimepoints cfg patientId w =
  (mkWorld
     (mkApi (currentTimepointId (this w))
        (mkCollection
           (docs (timepoints (this w)) ++
            assign_ids (next_id (timepoints (this w))) data)
           (List.length data + next_id (timepoints (this w)))))
     (console w ++ [Info (Text "Timepoint data retrieval"); Info (Data data)]),
   Return (Some (Resolved tt))).
Proof.
  intros Hde Hf Hp.
  unfold retrieveTimepoints, getDataExchange, bind, then_.
  rewrite Hde; unfold ret at 1. rewrite Hf, Hp.
  unfold log; simpl. rewrite insert_each_spec; simpl.
  unfold ret. now rewrite <- app_assoc.
Qed.

(** C1 (as stated, refuted): the claim says that a retrieval replaces the
    stored set, so that [all()] afterwards holds exactly the fetched
    records.  Retrieving the same single record a second time leaves two
    documents in the store. *)
Lemma retrieveTimepoints_keeps_stored_records :
  let fetched := [Samples.tp "tp-base" "baseline" 100] in
  let w := Samples.loaded None fetched in
  map fields (all (this (fst (retrieveTimepoints
                                (Samples.retrieving fetched) None w))))
  <> sort_docs LatestDateDesc (map fields fetched).
Proof. vm_compute. discriminate. Qed.

(** C1 (amended): when the retrieval function is present and its promise
    resolves with [data], the returned promise resolves and the fetched
    records are added to the documents already stored: [all()] then lists
    the earlier documents together with the fetched ones, most recent
    [latestDate] first, every fetched record stored without the [_id] it
    came with and under a generated one.  On a store that was empty,
    [all()] lists exactly the fetched records. *)
Theorem retrieveTimepoints_adds_fetched_records
    cfg de retrievalFn patientId data w :
  dataExchange cfg = Some de ->
  DataExchange.retrieve de = Some retrievalFn ->
  retrievalFn patientId = Resolved data ->
  let before := timepoints (this w) in
  let api' := this (fst (retrieveTimepoints cfg patientId w)) in
  completion_of (retrieveTimepoints cfg patientId) w
    = Return (Some (Resolved tt)) /\
  all api' =
    sort_docs LatestDateDesc
      (docs before ++ assign_ids (next_id before) data) /\
  map fields (all api') =
    sort_docs LatestDateDesc (map fields (docs before) ++ map fields data) /\
  (docs before = [] ->
   map fields (all api') = sort_docs LatestDateDesc (map fields data)).
Proof.
  intros Hde Hf Hp before api'.
  pose proof (retrieveTimepoints_resolved cfg de retrievalFn patientId data w
                Hde Hf Hp) as E.
  assert (Hall : all api' =
    sort_docs LatestDateDesc
      (docs before ++ assign_ids (next_id before) data)).
  { subst api'. rewrite E. now rewrite all_eq. }
  assert (Hfields : map fields (all api') =
    sort_docs LatestDateDesc (map fields (docs before) ++ map fields data)).
  { rewrite Hall, sort_docs_map by apply latestDate_fields.
    now rewrite map_app, fields_assign_ids. }
  repeat split; auto.
  - unfold completion_of. now rewrite E.
  - intros Hempty. rewrite Hfields, Hempty. reflexivity.
Qed.

Lemma retrieveTimepoints_adds_fetched_records_witness :
  let cfg := Samples.retrieving Samples.visits in
  let w := Samples.fresh (Some "tp-f2") in
  let before := timepoints (this w) in
  let api' := this (fst (retrieveTimepoints cfg None w)) in
  completion_of (retrieveTimepoints cfg None) w
    = Return (Some (Resolved tt)) /\
  all api' =
    sort_docs LatestDateDesc
      (docs before ++ assign_ids (next_id before) Samples.visits) /\
  map fields (all api') =
    sort_docs LatestDateDesc
      (map fields (docs before) ++ map fields Samples.visits) /\
  (docs before = [] ->
   map fields (all api') =
   sort_docs LatestDateDesc (map fields Samples.visits)).
Proof.
  exact (retrieveTimepoints_adds_fetched_records
           (Samples.retrieving Samples.visits)
           (DataExchange.mk (Some (fun _ => Resolved Samples.visits))
                           None None None None)
           (fun _ => Resolved Samples.visits) None Samples.visits
           (Samples.fresh (Some "tp-f2")) eq_refl eq_refl eq_refl).
Defined.

(** ** Missing data-exchange functions *)

Ltac run_method :=
  unfold retrieveTimepoints, storeTimepoints, removeTimepoint,
    updateTimepoint, disassociateStudy, lock, getDataExchange,
    timepoints_after, completion_of, bind, then_, ret, throw, log,
    get_timepoints, set_timepoints, get_this;
  simpl.

(** Before [setConfiguration] supplied a [dataExchange] object, reading a
    function from it is itself a [TypeError]. *)
Lemma missing_dataExchange_throws pid tid q ids uid w :
  let cfg := mkConfiguration None in
  exists msg,
    retrieveTimepoints cfg pid w = (w, Throw (TypeError msg)) /\
    storeTimepoints cfg w = (w, Throw (TypeError msg)) /\
    updateTimepoint cfg tid q w = (w, Throw (TypeError msg)) /\
    removeTimepoint cfg tid w = (w, Throw (TypeError msg)) /\
    disassociateStudy cfg ids uid w = (w, Throw (TypeError msg)).
Proof. eexists; repeat split; reflexivity. Qed.

(** C2: with a [dataExchange] object that lacks the function of the
    operation, [retrieveTimepoints], [storeTimepoints], [updateTimepoint]
    and [removeTimepoint] return normally and leave store and log as they
    were; [disassociateStudy] has no such test and calls the missing
    function, which throws a [TypeError]. *)
Theorem absent_function_only_disassociateStudy_throws :
  (forall st up rm dis pid w,
     retrieveTimepoints
       (mkConfiguration (Some (DataExchange.mk None st up rm dis))) pid w
     = (w, Return None)) /\
  (forall rt up rm dis w,
     storeTimepoints
       (mkConfiguration (Some (DataExchange.mk rt None up rm dis))) w
     = (w, Return tt)) /\
  (forall rt st rm dis tid q w,
     updateTimepoint
       (mkConfiguration (Some (DataExchange.mk rt st None rm dis))) tid q w
     = (w, Return tt)) /\
  (forall rt st up dis tid w,
     removeTimepoint
       (mkConfiguration (Some (DataExchange.mk rt st up None dis))) tid w
     = (w, Return tt)) /\
  (forall rt st up rm ids uid w,
     disassociateStudy
       (mkConfiguration (Some (DataExchange.mk rt st up rm None))) ids uid w
     = (w, Throw (TypeError "disassociateFn is not a function"))).
Proof. repeat split. Qed.

(** ** When local mutations happen *)

(** C3 (as stated, refuted): [lock] takes no data-exchange function at
    all, yet it changes the stored set as soon as a current record exists:
    here it marks [tp-f2] as locked. *)
Lemma lock_mutates_without_external_function :
  let w := Samples.loaded (Some "tp-f2") Samples.visits in
  completion_of lock w = Return tt /\
  timepoints_after lock w <> timepoints (this w).
Proof. split; [reflexivity | vm_compute; discriminate]. Qed.

(** C3 (amended): [updateTimepoint] and [removeTimepoint] change the
    stored set only when their data-exchange function is present and its
    promise has resolved, and then by the Minimongo update, respectively
    removal, made in the callback; with the function absent they return
    at once and change nothing.  [lock] involves no external function: it
    sets [locked] on the current record at once and does nothing only when
    there is no current record. *)
Theorem mutations_follow_resolved_round_trip cfg :
  (forall tid q w,
     (timepoints_after (updateTimepoint cfg tid q) w <> timepoints (this w) ->
      exists de updateFn,
        dataExchange cfg = Some de /\ DataExchange.update de = Some updateFn /\
        updateFn tid q = Resolved tt) /\
     (forall de updateFn,
        dataExchange cfg = Some de -> DataExchange.update de = Some updateFn ->
        updateFn tid q = Resolved tt ->
        timepoints_after (updateTimepoint cfg tid q) w =
        update (SelTimepointId (Some tid)) q (timepoints (this w))) /\
     (forall de,
        dataExchange cfg = Some de -> DataExchange.update de = None ->
        updateTimepoint cfg tid q w = (w, Return tt))) /\
  (forall tid w,
     (timepoints_after (removeTimepoint cfg tid) w <> timepoints (this w) ->
      exists de removeFn,
        dataExchange cfg = Some de /\ DataExchange.remove de = Some removeFn /\
        removeFn tid = Resolved tt) /\
     (forall de removeFn,
        dataExchange cfg = Some de -> DataExchange.remove de = Some removeFn ->
        removeFn tid = Resolved tt ->
        timepoints_after (removeTimepoint cfg tid) w =
        remove (SelTimepointId (Some tid)) (timepoints (this w))) /\
     (forall de,
        dataExchange cfg = Some de -> DataExchange.remove de = None ->
        removeTimepoint cfg tid w = (w, Return tt))) /\
  (forall w,
     completion_of lock w = Return tt /\
     (current (this w) = None -> lock w = (w, Return tt)) /\
     (forall c, current (this w) = Some c ->
        timepoints_after lock w =
        update (SelId (_id c)) [SetLocked true] (timepoints (this w)))).
Proof.
  split; [|split].
  - intros tid q w. split; [|split].
    + run_method. destruct (dataExchange cfg) as [de|] eqn:Hde; simpl; [|tauto].
      destruct (DataExchange.update de) as [f|] eqn:Hf; simpl; [|tauto].
      destruct (f tid q) as [[]| |] eqn:Hp; simpl; [|tauto|tauto].
      intros _. now exists de, f.
    + intros de f Hde Hf Hp. run_method. now rewrite Hde, Hf, Hp.
    + intros de Hde Hf. run_method. now rewrite Hde, Hf.
  - intros tid w. split; [|split].
    + run_method. destruct (dataExchange cfg) as [de|] eqn:Hde; simpl; [|tauto].
      destruct (DataExchange.remove de) as [f|] eqn:Hf; simpl; [|tauto].
      destruct (f tid) as [[]| |] eqn:Hp; simpl; [|tauto|tauto].
      intros _. now exists de, f.
    + intros de f Hde Hf Hp. run_method. now rewrite Hde, Hf, Hp.
    + intros de Hde Hf. run_method. now rewrite Hde, Hf.
  - intros w. repeat split.
    + run_method. now destruct (current (this w)).
    + intros Hc. run_method. now rewrite Hc.
    + intros c Hc. run_method. now rewrite Hc.
Qed.

Lemma mutations_follow_resolved_round_trip_witness :
  let w := Samples.loaded (Some "tp-f2") Samples.visits in
  timepoints_after
    (updateTimepoint Samples.exchanging "tp-f1" [SetLocked true]) w =
  update (SelTimepointId (Some "tp-f1")) [SetLocked true] (timepoints (this w))
  /\
  timepoints_after (removeTimepoint Samples.exchanging "tp-f1") w =
  remove (SelTimepointId (Some "tp-f1")) (timepoints (this w)).
Proof.
  intros w.
  destruct (mutations_follow_resolved_round_trip Samples.exchanging)
    as (Hu & Hr & _).
  split.
  - destruct (Hu "tp-f1" [SetLocked true] w) as (_ & H & _).
    exact (H Samples.exchange _ eq_refl eq_refl eq_refl).
  - destruct (Hr "tp-f1" w) as (_ & H & _).
    exact (H Samples.exchange _ eq_refl eq_refl eq_refl).
Defined.

(** ** [current] and [prior] *)

Lemma precedes_irrefl s a : precedes s a a = false.
Proof. destruct s; simpl; auto using Z.ltb_irrefl. Qed.

(** The first element of a sorted result is in the input and no element
    of the input strictly precedes it. *)
Lemma hd_sort_docs s l p :
  hd_error (sort_docs s l) = Some p ->
  In p l /\ forall q, In q l -> in_order s p q.
Proof.
  intros H.
  pose proof (sort_docs_sorted s l) as Hs.
  pose proof (fun t => sort_docs_In s t l) as Hin.
  destruct (sort_docs s l) as [|p' rest]; [discriminate|].
  injection H as ->. split.
  - apply Hin. now left.
  - intros q Hq. apply Hin in Hq. destruct Hq as [<-|Hq].
    + apply precedes_irrefl.
    + inversion Hs as [|? ? _ Hall]; subst.
      rewrite Forall_forall in Hall. now apply Hall.
Qed.

Lemma hd_sort_docs_None s l : hd_error (sort_docs s l) = None <-> l = [].
Proof.
  pose proof (sort_docs_length s l) as Hlen.
  destruct (sort_docs s l), l; simpl in *; try discriminate;
    split; intros; reflexivity || discriminate.
Qed.

Lemma findOne_Some sel s c p :
  findOne sel s c = Some p ->
  In p (docs c) /\ matches sel p = true /\
  forall q, In q (docs c) -> matches sel q = true -> in_order s p q.
Proof.
  unfold findOne, find. intros H. apply hd_sort_docs in H.
  destruct H as [Hin Hmax]. apply filter_In in Hin. destruct Hin as [Hin Hm].
  repeat split; auto.
  intros q Hq Hmq. apply Hmax, filter_In. now split.
Qed.

Lemma findOne_None sel s c :
  findOne sel s c = None <->
  forall q, In q (docs c) -> matches sel q = false.
Proof.
  unfold findOne, find. rewrite hd_sort_docs_None. split.
  - intros H q Hq. destruct (matches sel q) eqn:E; auto.
    assert (In q (filter (matches sel) (docs c))) as Hin
      by (apply filter_In; now split).
    rewrite H in Hin. destruct Hin.
  - intros H. induction (docs c) as [|t l IH]; simpl; auto.
    rewrite (H t) by now left. apply IH. intros q Hq. apply H. now right.
Qed.

Lemma current_Some api c :
  current api = Some c ->
  In c (docs (timepoints api)) /\
  currentTimepointId api = Some (timepointId c).
Proof.
  unfold current. intros H. apply findOne_Some in H.
  destruct H as (Hin & Hm & _). split; auto.
  destruct (currentTimepointId api) as [v|]; simpl in Hm; [|discriminate].
  apply String.eqb_eq in Hm. now subst.
Qed.

Lemma current_None api :
  current api = None <->
  forall t, In t (docs (timepoints api)) ->
            currentTimepointId api <> Some (timepointId t).
Proof.
  unfold current. rewrite findOne_None. split; intros H t Ht.
  - specialize (H t Ht). intros E. rewrite E in H; simpl in H.
    now rewrite String.eqb_refl in H.
  - specialize (H t Ht).
    destruct (currentTimepointId api) as [v|]; simpl; auto.
    apply String.eqb_neq. congruence.
Qed.

(** C4: [prior()] is none when no record matches [currentTimepointId];
    otherwise, with [c] the current record, a returned record is stored,
    is dated strictly before [c] -- never on or after it -- and no stored
    record dated strictly before [c] is more recent; and [prior()] is none
    exactly when no stored record is dated strictly before [c]. *)
Theorem prior_is_latest_strictly_before_current api :
  ((forall t, In t (all api) ->
              currentTimepointId api <> Some (timepointId t)) ->
   prior api = None) /\
  (forall c, current api = Some c ->
     (forall p, prior api = Some p ->
        In p (all api) /\
        (latestDate p < latestDate c)%Z /\
        ~ (latestDate p >= latestDate c)%Z /\
        forall q, In q (all api) -> (latestDate q < latestDate c)%Z ->
                  (latestDate q <= latestDate p)%Z) /\
     (prior api = None <->
      forall q, In q (all api) -> (latestDate c <= latestDate q)%Z)).
Proof.
  split.
  - intros H. unfold prior.
    replace (current api) with (@None Timepoint); auto.
    symmetry. apply current_None. intros t Ht. apply H. now apply in_all.
  - intros c Hc. unfold prior. rewrite Hc. split.
    + intros p Hp. apply findOne_Some in Hp.
      destruct Hp as (Hin & Hm & Hmax). simpl in Hm. apply Z.ltb_lt in Hm.
      split; [now apply in_all|].
      split; [exact Hm|]. split; [lia|].
      intros q Hq Hlt. apply in_all in Hq.
      assert (in_order LatestDateDesc p q) as Hord
        by (apply Hmax; simpl; auto; now apply Z.ltb_lt).
      unfold in_order in Hord; simpl in Hord. now apply Z.ltb_ge in Hord.
    + rewrite findOne_None. split; intros H q Hq.
      * apply in_all in Hq. specialize (H q Hq). simpl in H.
        now apply Z.ltb_ge in H.
      * simpl. apply Z.ltb_ge. apply H. now apply in_all.
Qed.

(** C10: when [currentTimepointId] is unset, or designates no stored
    record, the read operations return normally: [current()] and
    [prior()] are none, however many records are stored, and
    [currentAndPrior()] is empty.  The constructor leaves
    [currentTimepointId] unset unless its argument is truthy. *)
Theorem reads_without_current_record api :
  no_current_record api ->
  current api = None /\ prior api = None /\ currentAndPrior api = [] /\
  currentTimepointId (constructor None) = None /\
  currentTimepointId (constructor (Some "")) = None.
Proof.
  intros H.
  assert (Hc : current api = None).
  { apply current_None. destruct H as [H|H].
    - intros t _. rewrite H. discriminate.
    - intros t Ht. apply H. now apply in_all. }
  unfold currentAndPrior, prior. rewrite Hc. auto.
Qed.

Lemma reads_without_current_record_witness :
  let api := this (Samples.loaded None Samples.visits) in
  current api = None /\ prior api = None /\ currentAndPrior api = [] /\
  currentTimepointId (constructor None) = None /\
  currentTimepointId (constructor (Some "")) = None.
Proof.
  exact (reads_without_current_record
           (this (Samples.loaded None Samples.visits))
           (or_introl eq_refl)).
Defined.

(** ** [currentAndPrior] *)

Lemma NoDup_map_inj {A B} (f : A -> B) l a b :
  NoDup (map f l) -> In a l -> In b l -> f a = f b -> a = b.
Proof.
  induction l as [|x l IH]; simpl; [tauto|].
  intros Hnd Ha Hb E. inversion Hnd as [|? ? Hx Hl]; subst.
  destruct Ha as [->|Ha], Hb as [->|Hb]; auto.
  - exfalso. apply Hx. rewrite E. now apply in_map.
  - exfalso. apply Hx. rewrite <- E. now apply in_map.
Qed.

Lemma id_neq_true a b : id_neq a b = true <-> a <> b.
Proof.
  destruct a as [i|], b as [j|]; simpl; split; intros H;
    try congruence; try discriminate.
  - apply negb_true_iff, Nat.eqb_neq in H. congruence.
  - apply negb_true_iff, Nat.eqb_neq. congruence.
Qed.

(** The prior record is another document than the current one. *)
Lemma prior_differs api c p :
  current api = Some c -> prior api = Some p ->
  In c (docs (timepoints api)) /\ In p (docs (timepoints api)) /\ p <> c.
Proof.
  intros Hc Hp. unfold prior in Hp. rewrite Hc in Hp.
  apply findOne_Some in Hp. destruct Hp as (Hin & Hm & _).
  apply current_Some in Hc. destruct Hc as [Hcin _].
  repeat split; auto. intros ->. simpl in Hm.
  now rewrite Z.ltb_irrefl in Hm.
Qed.

(** C8: on a store with at most one record per [timepointId],
    [currentAndPrior()] is [current; prior] when both exist and differ in
    [_id], and otherwise the shorter list made of the current record, if
    any; its entries never share a [timepointId].  In a well-formed
    collection the prior record always differs from the current one. *)
Theorem currentAndPrior_distinct api :
  unique_timepointIds api ->
  (forall c p, current api = Some c -> prior api = Some p ->
     _id p <> _id c -> currentAndPrior api = [c; p]) /\
  (current api = None -> currentAndPrior api = []) /\
  (forall c, current api = Some c ->
     prior api = None \/ (exists p, prior api = Some p /\ _id p = _id c) ->
     currentAndPrior api = [c]) /\
  NoDup (map timepointId (currentAndPrior api)) /\
  (wf (timepoints api) ->
   forall c p, current api = Some c -> prior api = Some p -> _id p <> _id c).
Proof.
  intros Huniq. split; [|split; [|split; [|split]]].
  - intros c p Hc Hp Hne. unfold currentAndPrior. rewrite Hc, Hp.
    apply id_neq_true in Hne. now rewrite Hne.
  - intros Hc. unfold currentAndPrior, prior. now rewrite Hc.
  - intros c Hc [Hp|(p & Hp & E)]; unfold currentAndPrior; rewrite Hc, Hp; auto.
    destruct (id_neq (_id p) (_id c)) eqn:N; auto.
    apply id_neq_true in N. contradiction.
  - unfold currentAndPrior.
    destruct (current api) as [c|] eqn:Hc; [|constructor].
    destruct (prior api) as [p|] eqn:Hp; [|repeat constructor; simpl; tauto].
    destruct (id_neq (_id p) (_id c)); [|repeat constructor; simpl; tauto].
    destruct (prior_differs api c p Hc Hp) as (Hcin & Hpin & Hne).
    simpl. repeat constructor; simpl; try tauto.
    intros [E|[]]. apply Hne.
    now apply (NoDup_map_inj timepointId (docs (timepoints api))).
  - intros [Hnd _] c p Hc Hp E.
    destruct (prior_differs api c p Hc Hp) as (Hcin & Hpin & Hne).
    apply Hne. now apply (NoDup_map_inj _id (docs (timepoints api))).
Qed.

Lemma currentAndPrior_distinct_witness :
  let api := this (Samples.loaded (Some "tp-f2") Samples.visits) in
  NoDup (map timepointId (currentAndPrior api)) /\
  List.length (currentAndPrior api) = 2.
Proof.
  intros api. split; [|reflexivity].
  assert (unique_timepointIds api) as Huniq.
  { unfold unique_timepointIds; simpl.
    repeat constructor; simpl; intuition discriminate. }
  exact (proj1 (proj2 (proj2 (proj2 (currentAndPrior_distinct api Huniq))))).
Defined.

(** ** Well-formed collections *)

Lemma wf_empty : wf Minimongo.empty.
Proof. split; constructor. Qed.

Lemma has_id_false i c :
  ~ In (Some i) (map _id (docs c)) -> has_id i c = false.
Proof.
  unfold has_id. induction (docs c) as [|t l IH]; simpl; auto.
  intros H. rewrite IH by tauto.
  destruct (_id t) as [j|] eqn:E; simpl; auto.
  destruct (Nat.eqb_spec i j); auto. subst. tauto.
Qed.

Lemma wf_fresh c t :
  wf c -> In t (docs c) -> _id t <> Some (next_id c).
Proof.
  intros [_ Hall] Ht E. rewrite Forall_forall in Hall.
  destruct (Hall t Ht) as (i & Hi & Hlt). rewrite Hi in E.
  injection E as ->. lia.
Qed.

Lemma wf_insert_generated c t :
  wf c ->
  wf (mkCollection (docs c ++ [with_id (next_id c) t]) (S (next_id c))).
Proof.
  intros Hwf. pose proof Hwf as [Hnd Hall]. split; simpl.
  - rewrite map_app; simpl.
    apply NoDup_app; auto.
    + repeat constructor. simpl; tauto.
    + intros x Hx [<-|[]]. apply in_map_iff in Hx.
      destruct Hx as (d & Hd & Hin). now apply (wf_fresh c d).
  - apply Forall_app. split.
    + eapply Forall_impl; [|exact Hall].
      intros d (i & Hi & Hlt). exists i. split; auto.
    + repeat constructor. exists (next_id c). simpl. split; auto.
Qed.

Lemma wf_assign_ids data : forall c,
  wf c ->
  wf (mkCollection (docs c ++ assign_ids (next_id c) data)
                   (List.length data + next_id c)).
Proof.
  induction data as [|t data IH]; intros c Hwf; simpl.
  - rewrite app_nil_r. now destruct c.
  - specialize (IH _ (wf_insert_generated c (delete_id t) Hwf)).
    simpl in IH. rewrite <- app_assoc in IH; simpl in IH.
    now rewrite <- plus_n_Sm in IH.
Qed.

Lemma wf_remove sel c : wf c -> wf (remove sel c).
Proof.
  intros [Hnd Hall]. split; simpl.
  - clear Hall. induction (docs c) as [|t l IH]; simpl; auto.
    inversion Hnd as [|? ? Hx Hl]; subst.
    destruct (negb (matches sel t)); simpl; auto.
    constructor; auto. intros Hin. apply Hx.
    apply in_map_iff in Hin. destruct Hin as (d & Hd & Hin).
    apply filter_In in Hin. rewrite <- Hd. apply in_map. tauto.
  - rewrite Forall_forall in *. intros t Ht. apply filter_In in Ht.
    apply Hall; tauto.
Qed.

Lemma id_modify m : forall t, _id (modify m t) = _id t.
Proof.
  unfold modify. induction m as [|f m IH]; intros t; simpl; auto.
  rewrite IH. now destruct f.
Qed.

Lemma map_id_update_first sel m l :
  map _id (update_first sel m l) = map _id l.
Proof.
  induction l as [|t l IH]; simpl; auto.
  destruct (matches sel t); simpl; now rewrite ?id_modify, ?IH.
Qed.

Lemma wf_update sel m c : wf c -> wf (update sel m c).
Proof.
  intros [Hnd Hall]. split; simpl.
  - now rewrite map_id_update_first.
  - clear Hnd. induction Hall as [|t l Ht Hall IH]; simpl; auto.
    destruct (matches sel t); constructor; auto.
    now rewrite id_modify.
Qed.

(** Every method keeps the collection well formed. *)
Lemma wf_retrieveTimepoints cfg pid w :
  wf (timepoints (this w)) ->
  wf (timepoints_after (retrieveTimepoints cfg pid) w).
Proof.
  intros Hwf. run_method.
  destruct (dataExchange cfg) as [de|]; simpl; auto.
  destruct (DataExchange.retrieve de) as [f|]; simpl; auto.
  destruct (f pid) as [data| |]; simpl; auto.
  rewrite insert_each_spec; simpl. now apply wf_assign_ids.
Qed.

Lemma wf_storeTimepoints cfg w :
  wf (timepoints (this w)) -> wf (timepoints_after (storeTimepoints cfg) w).
Proof.
  intros Hwf. run_method.
  destruct (dataExchange cfg) as [de|]; simpl; auto.
  destruct (DataExchange.store de) as [f|]; simpl; auto.
  destruct (f _) as [[]| |]; simpl; auto.
Qed.

Lemma wf_updateTimepoint cfg tid q w :
  wf (timepoints (this w)) ->
  wf (timepoints_after (updateTimepoint cfg tid q) w).
Proof.
  intros Hwf. run_method.
  destruct (dataExchange cfg) as [de|]; simpl; auto.
  destruct (DataExchange.update de) as [f|]; simpl; auto.
  destruct (f tid q) as [[]| |]; simpl; auto.
  now apply (wf_update _ _ (timepoints (this w))).
Qed.

Lemma wf_removeTimepoint cfg tid w :
  wf (timepoints (this w)) ->
  wf (timepoints_after (removeTimepoint cfg tid) w).
Proof.
  intros Hwf. run_method.
  destruct (dataExchange cfg) as [de|]; simpl; auto.
  destruct (DataExchange.remove de) as [f|]; simpl; auto.
  destruct (f tid) as [[]| |]; simpl; auto.
  now apply (wf_remove _ (timepoints (this w))).
Qed.

Lemma wf_lock w :
  wf (timepoints (this w)) -> wf (timepoints_after lock w).
Proof.
  intros Hwf. run_method.
  destruct (current (this w)); simpl; auto.
  now apply (wf_update _ _ (timepoints (this w))).
Qed.

Lemma wf_disassociateStudy cfg ids uid w :
  wf (timepoints (this w)) ->
  wf (timepoints_after (disassociateStudy cfg ids uid) w).
Proof.
  intros Hwf. unfold timepoints_after, disassociateStudy, getDataExchange.
  unfold bind at 1.
  destruct (dataExchange cfg) as [de|] eqn:Hde; simpl; auto.
  destruct (DataExchange.disassociate de) as [f|]; simpl; auto.
  unfold bind at 1.
  destruct (f ids uid) as [[]| |]; simpl; auto.
  set (w1 := mkWorld
               (mkApi (currentTimepointId (this w))
                      (remove SelAll (timepoints (this w))))
               (console w ++ [Info (Text "Disassociation completed")])).
  assert (Hw1 : wf (timepoints (this w1)))
    by (apply (wf_remove SelAll (timepoints (this w))); auto).
  pose proof (wf_retrieveTimepoints cfg None w1 Hw1) as H.
  unfold timepoints_after in H.
  unfold bind, log, get_timepoints, set_timepoints; simpl. fold w1.
  destruct (retrieveTimepoints cfg None w1) as [w2 [r|e]]; simpl in *; auto.
Qed.

Lemma this_after_name t w : this (fst (name t w)) = this w.
Proof.
  unfold name. destruct (String.eqb (timepointType t) "baseline"); auto.
  unfold bind, get_timepoints.
  match goal with |- context [if ?b then _ else _] => destruct b end;
    reflexivity.
Qed.

Lemma this_after_title t w : this (fst (title t w)) = this w.
Proof.
  unfold title, bind. pose proof (this_after_name t w) as H.
  destruct (name t w) as [w' [r|e]]; simpl in *; auto.
Qed.

(** The collection of a [TimepointApi] object is well formed throughout
    its life. *)
Lemma reachable_wf w : reachable w -> wf (timepoints (this w)).
Proof.
  induction 1.
  - apply wf_empty.
  - now apply wf_retrieveTimepoints.
  - now apply wf_storeTimepoints.
  - now apply wf_disassociateStudy.
  - now apply wf_removeTimepoint.
  - now apply wf_updateTimepoint.
  - now apply wf_lock.
  - now rewrite this_after_name.
  - now rewrite this_after_title.
Qed.

(** ** [key] *)

Lemma entries_at_cons keep i t l :
  entries_at keep i (t :: l) =
  (if keep i then [t] else []) ++ entries_at keep (S i) l.
Proof. unfold entries_at; simpl. now destruct (keep i). Qed.

Lemma entries_at_app keep l1 : forall i l2,
  entries_at keep i (l1 ++ l2) =
  entries_at keep i l1 ++ entries_at keep (List.length l1 + i) l2.
Proof.
  induction l1 as [|t l1 IH]; intros i l2; simpl; auto.
  rewrite !entries_at_cons, IH, <- app_assoc, plus_n_Sm. reflexivity.
Qed.

Lemma entries_at_none keep l : forall i,
  (forall j, i <= j < List.length l + i -> keep j = false) ->
  entries_at keep i l = [].
Proof.
  induction l as [|t l IH]; intros i H; auto.
  rewrite entries_at_cons, (H i) by (simpl; lia). simpl.
  apply IH. intros j Hj. apply H. simpl. lia.
Qed.

(** The four shapes of a list and what [key_entries] keeps of each. *)
Lemma key_entries_shapes :
  key_entries [] = [] /\
  (forall a, key_entries [a] = [a]) /\
  (forall a b, key_entries [a; b] = [a; b]) /\
  (forall a b mid z, key_entries (a :: b :: mid ++ [z]) = [a; b; z]).
Proof.
  repeat split.
  intros a b mid z. unfold key_entries.
  set (n := List.length (a :: b :: mid ++ [z])).
  assert (Hn : n = List.length mid + 3)
    by (subst n; simpl; rewrite length_app; simpl; lia).
  clearbody n.
  rewrite !entries_at_cons, entries_at_app, entries_at_cons.
  rewrite (entries_at_none _ mid).
  - assert (Hlast : key_position n (List.length mid + 2) = true).
    { unfold key_position. apply orb_true_iff. right.
      apply Nat.eqb_eq. lia. }
    rewrite Hlast. reflexivity.
  - intros j Hj. unfold key_position.
    destruct (Nat.eqb_spec j 0), (Nat.eqb_spec j 1), (Nat.eqb_spec (S j) n);
      simpl; auto; lia.
Qed.

Lemma key_entries_short l : List.length l <= 3 -> key_entries l = l.
Proof.
  destruct l as [|a [|b [|c [|d l]]]]; simpl; intros H;
    try reflexivity; lia.
Qed.

Lemma key_test n i :
  ((Z.of_nat i <? 2)%Z || (Z.of_nat i =? Z.of_nat n - 1)%Z)
  = key_position n i.
Proof.
  unfold key_position.
  destruct (Z.ltb_spec (Z.of_nat i) 2), (Z.eqb_spec (Z.of_nat i) (Z.of_nat n - 1)),
    (Nat.eqb_spec i 0), (Nat.eqb_spec i 1), (Nat.eqb_spec (S i) n);
    simpl; auto; lia.
Qed.

(** The loop of [key] never meets a duplicate [_id] when the documents
    it is given have pairwise distinct identifiers, none of them in the
    result collection yet. *)
Lemma key_each_spec n l : forall i result,
  (forall t, In t l -> exists k, _id t = Some k) ->
  NoDup (map _id l) ->
  (forall t, In t l -> ~ In (_id t) (map _id (docs result))) ->
  exists m,
    key_each (Z.of_nat n) (Z.of_nat i) l result =
    Return (mkCollection (docs result ++ entries_at (key_position n) i l) m).
Proof.
  induction l as [|t l IH]; intros i result Hid Hnd Hnew.
  - simpl. exists (next_id result). unfold entries_at; simpl.
    rewrite app_nil_r. now destruct result.
  - simpl key_each. rewrite key_test, entries_at_cons.
    replace (Z.of_nat i + 1)%Z with (Z.of_nat (S i)) by lia.
    inversion Hnd as [|? ? Ht Hl]; subst.
    destruct (key_position n i).
    + destruct (Hid t (or_introl eq_refl)) as [k Hk].
      unfold insert. rewrite Hk.
      rewrite has_id_false
        by (rewrite <- Hk; apply Hnew; now left).
      destruct (IH (S i)
                  (mkCollection (docs result ++ [t])
                                (Nat.max (next_id result) (S k))))
        as [m Hm]; auto.
      * intros t' Ht'. apply Hid. now right.
      * intros t' Ht'. simpl. rewrite map_app, in_app_iff. simpl.
        intros [Hin|[E|[]]].
        -- apply (Hnew t'); auto. now right.
        -- apply Ht. rewrite E. now apply in_map.
      * exists m. rewrite Hm. simpl. now rewrite <- app_assoc.
    + destruct (IH (S i) result) as [m Hm]; auto.
      * intros t' Ht'. apply Hid. now right.
      * intros t' Ht'. apply Hnew. now right.
      * exists m. now rewrite Hm.
Qed.

Lemma key_spec api :
  wf (timepoints api) -> key api = Return (key_entries (all api)).
Proof.
  intros [Hnd Hall]. unfold key.
  assert (Hperm : Permutation (all api) (docs (timepoints api)))
    by (rewrite all_eq; apply sort_docs_perm).
  destruct (key_each_spec (List.length (all api)) (all api) 0 Minimongo.empty)
    as [m Hm].
  - intros t Ht. apply in_all in Ht. rewrite Forall_forall in Hall.
    destruct (Hall t Ht) as (k & Hk & _). now exists k.
  - eapply Permutation_NoDup; [|exact Hnd].
    apply Permutation_map. now symmetry.
  - simpl. tauto.
  - change (Z.of_nat 0) with 0%Z in Hm. rewrite Hm.
    unfold find; simpl. now rewrite filter_all, sort_docs_unsorted.
Qed.

(** C7: [key()] returns the entries of [all()] found at position 0, at
    position 1 and at the final position, each position contributing once:
    nothing of an empty list, the whole of a list of one or two entries,
    and first, second and last of a longer one.  The selection does not
    look at [timepointType]: a store may hold a baseline record that
    [key()] leaves out. *)
Theorem key_selects_by_position api :
  wf (timepoints api) ->
  key api = Return (key_entries (all api)) /\
  (key_entries [] = [] /\
   (forall a, key_entries [a] = [a]) /\
   (forall a b, key_entries [a; b] = [a; b]) /\
   (forall a b mid z, key_entries (a :: b :: mid ++ [z]) = [a; b; z])) /\
  (exists api' k,
     wf (timepoints api') /\ baseline api' <> None /\
     key api' = Return k /\ existsb is_baseline k = false).
Proof.
  intros Hwf. split; [now apply key_spec|]. split; [apply key_entries_shapes|].
  exists (this (Samples.loaded None Samples.late_baseline)).
  eexists. split; [|split; [|split]].
  - apply (wf_retrieveTimepoints _ None (Samples.fresh None)), wf_empty.
  - vm_compute. discriminate.
  - vm_compute. reflexivity.
  - reflexivity.
Qed.

Lemma key_selects_by_position_witness :
  let api := this (Samples.loaded (Some "tp-f2") Samples.visits) in
  key api = Return (key_entries (all api)).
Proof.
  intros api.
  assert (wf (timepoints api)) as Hwf
    by (apply (wf_retrieveTimepoints _ None (Samples.fresh (Some "tp-f2"))),
          wf_empty).
  exact (proj1 (key_selects_by_position api Hwf)).
Defined.

(** C9: on a store of at most three records [key()] returns the very
    sequence [all()] returns; no record is entered twice although the
    final position then coincides with position 0, 1 or 2. *)
Theorem key_is_all_up_to_three api :
  wf (timepoints api) ->
  List.length (docs (timepoints api)) <= 3 ->
  key api = Return (all api).
Proof.
  intros Hwf Hlen. rewrite key_spec by assumption.
  rewrite key_entries_short; auto.
  rewrite all_eq, sort_docs_length. assumption.
Qed.

Lemma key_is_all_up_to_three_witness :
  let api := this (Samples.loaded (Some "tp-f2")
                     (firstn 3 Samples.visits)) in
  key api = Return (all api).
Proof.
  intros api.
  assert (wf (timepoints api)) as Hwf
    by (apply (wf_retrieveTimepoints _ None (Samples.fresh (Some "tp-f2"))),
          wf_empty).
  assert (List.length (docs (timepoints api)) <= 3) as Hlen
    by (simpl; lia).
  exact (key_is_all_up_to_three api Hwf Hlen).
Defined.

(** ** [name] *)

Lemma indexOf_lower x l : (-1 <= indexOf x l)%Z.
Proof.
  induction l as [|y l IH]; simpl; [lia|].
  destruct (String.eqb y x); [lia|].
  destruct (Z.ltb_spec (indexOf x l) 0); lia.
Qed.

Lemma indexOf_absent x l : ~ In x l -> indexOf x l = (-1)%Z.
Proof.
  induction l as [|y l IH]; simpl; auto. intros H.
  destruct (String.eqb_spec y x); [tauto|].
  rewrite IH by tauto. reflexivity.
Qed.

Lemma indexOf_first x l : forall i,
  nth_error l i = Some x ->
  (forall j, j < i -> nth_error l j <> Some x) ->
  indexOf x l = Z.of_nat i.
Proof.
  induction l as [|y l IH]; intros i Hi Hfirst.
  - destruct i; discriminate.
  - simpl. destruct (String.eqb_spec y x) as [->|Hne].
    + destruct i as [|i]; auto.
      exfalso. apply (Hfirst 0); [lia | reflexivity].
    + destruct i as [|i]; simpl in Hi; [congruence|].
      rewrite (IH i Hi).
      * destruct (Z.ltb_spec (Z.of_nat i) 0); lia.
      * intros j Hj. apply (Hfirst (S j)). lia.
Qed.

Lemma in_relevant_followups api t q :
  In q (relevant_followups api t) <->
  In q (docs (timepoints api)) /\
  patientId q = patientId t /\ timepointType q = timepointType t.
Proof.
  unfold relevant_followups, find. rewrite sort_docs_In, filter_In. simpl.
  rewrite andb_true_iff, !String.eqb_eq. intuition congruence.
Qed.

Lemma relevant_followups_ascending api t :
  StronglySorted (fun a b => (latestDate a <= latestDate b)%Z)
                 (relevant_followups api t).
Proof.
  unfold relevant_followups, find.
  induction (sort_docs_sorted LatestDateAsc
               (filter (matches (SelPatientAndType (patientId t)
                                                   (timepointType t)))
                       (docs (timepoints api))))
    as [|a l Hs IH Ha]; constructor; auto.
  eapply Forall_impl; [|exact Ha].
  intros b; unfold in_order; simpl. now rewrite Z.ltb_ge.
Qed.

Lemma name_baseline t w :
  timepointType t = "baseline" -> name t w = (w, Return (Some "Baseline")).
Proof. intros H. unfold name. now rewrite H. Qed.

Lemma name_ranked t w k :
  timepointType t <> "baseline" ->
  has_rank (timepointId t)
           (map timepointId (relevant_followups (this w) t)) k ->
  name t w =
  (w, Return (Some ("Follow-up " ++ number_to_string (Z.of_nat k))%string)).
Proof.
  intros Hty (i & -> & Hi & Hfirst). unfold name.
  apply String.eqb_neq in Hty. rewrite Hty.
  unfold bind, get_timepoints. fold (relevant_followups (this w) t).
  rewrite (indexOf_first _ _ i Hi Hfirst).
  replace (Z.of_nat i + 1)%Z with (Z.of_nat (S i)) by lia.
  destruct (Z.eqb_spec (Z.of_nat (S i)) 0); [lia|]. reflexivity.
Qed.

Lemma name_unranked t w :
  timepointType t <> "baseline" ->
  ~ In (timepointId t) (map timepointId (relevant_followups (this w) t)) ->
  name t w =
  (mkWorld (this w) (console w ++ [warning_not_in_list]), Return None).
Proof.
  intros Hty Hnot. unfold name.
  apply String.eqb_neq in Hty. rewrite Hty.
  unfold bind, get_timepoints. fold (relevant_followups (this w) t).
  now rewrite (indexOf_absent _ _ Hnot).
Qed.

(** A member of a list has a rank in it. *)
Lemma has_rank_of_In x l : In x l -> exists k, has_rank x l k.
Proof.
  induction l as [|y l IH]; simpl; [tauto|].
  destruct (string_dec y x) as [->|Hne].
  - intros _. exists 1, 0. repeat split; auto. intros j Hj; lia.
  - intros [E|Hin]; [contradiction|].
    destruct (IH Hin) as (k & i & -> & Hi & Hfirst).
    exists (S (S i)), (S i). repeat split; auto.
    intros [|j] Hj; simpl; [congruence|]. apply Hfirst. lia.
Qed.

(** C5: [name] answers ["Baseline"] for a baseline-typed timepoint,
    whatever else is stored.  For another timepoint it ranks the
    [timepointId] among the stored records of the same [patientId] and
    [timepointType] taken by ascending [latestDate]: with 1-based rank [k]
    the answer is ["Follow-up k"]; when the [timepointId] is not among
    them a warning is logged and the answer is undefined.  A stored
    timepoint always has a rank. *)
Theorem name_is_baseline_or_ranked_followup t w :
  (timepointType t = "baseline" ->
   name t w = (w, Return (Some "Baseline"))) /\
  (timepointType t <> "baseline" ->
   let followups := relevant_followups (this w) t in
   let ids := map timepointId followups in
   (forall q, In q followups <->
              In q (docs (timepoints (this w))) /\
              patientId q = patientId t /\
              timepointType q = timepointType t) /\
   StronglySorted (fun a b => (latestDate a <= latestDate b)%Z) followups /\
   (forall k, has_rank (timepointId t) ids k ->
      name t w =
      (w, Return (Some ("Follow-up " ++ number_to_string (Z.of_nat k))%string)))
   /\
   (~ In (timepointId t) ids ->
    name t w =
    (mkWorld (this w) (console w ++ [warning_not_in_list]), Return None)) /\
   (In t (docs (timepoints (this w))) ->
    exists k, has_rank (timepointId t) ids k)).
Proof.
  split; [apply name_baseline|].
  intros Hty followups ids. split; [|split; [|split; [|split]]].
  - intros q. apply in_relevant_followups.
  - apply relevant_followups_ascending.
  - intros k. now apply name_ranked.
  - now apply name_unranked.
  - intros Hin. apply has_rank_of_In. apply in_map.
    apply in_relevant_followups. auto.
Qed.

(** The follow-ups of January, March and June: the March one is
    ["Follow-up 2"]. *)
Example name_of_march_followup :
  let w := Samples.loaded None Samples.jan_mar_jun in
  map (fun t => completion_of (name t) w) (all (this w)) =
  [ Return (Some "Follow-up 3"); Return (Some "Follow-up 2");
    Return (Some "Follow-up 1"); Return (Some "Baseline") ].
Proof. reflexivity. Qed.

(** ** [title] *)

Section TitleLoop.

Variable cur : option string.
Variable target : string.

Lemma unmatched_upto_tail y l j :
  unmatched_upto cur (y :: l) (S j) -> unmatched_upto cur l j.
Proof. intros H k z Hk Hz. apply (H (S k) z); [lia | exact Hz]. Qed.

(** As long as the current record has not been met, [index] keeps its
    value. *)
Lemma title_loop_unseen l : forall j index,
  nth_error (map timepointId l) j = Some target ->
  unmatched_upto cur l j ->
  title_loop cur target l index None = index.
Proof.
  induction l as [|y l IH]; intros j index Hj Hun.
  - destruct j; discriminate.
  - simpl. rewrite (Hun 0 y) by (simpl; auto; lia).
    destruct (String.eqb_spec (timepointId y) target) as [E|Hne]; auto.
    destruct j as [|j]; simpl in Hj; [congruence|].
    apply (IH j); auto. now apply unmatched_upto_tail in Hun.
Qed.

(** Past the current record every step adds one. *)
Lemma title_loop_counting l : forall j index n,
  nth_error (map timepointId l) j = Some target ->
  (forall k, k < j -> nth_error (map timepointId l) k <> Some target) ->
  unmatched_upto cur l j ->
  title_loop cur target l index (Some n) = (n + Z.of_nat j)%Z.
Proof.
  induction l as [|y l IH]; intros j index n Hj Hfirst Hun.
  - destruct j; discriminate.
  - simpl. rewrite (Hun 0 y) by (simpl; auto; lia).
    destruct (String.eqb_spec (timepointId y) target) as [E|Hne].
    + destruct j as [|j]; [lia|].
      exfalso. apply (Hfirst 0); [lia|]. simpl. now rewrite E.
    + destruct j as [|j]; simpl in Hj; [congruence|].
      rewrite (IH j); auto.
      * lia.
      * intros k Hk. apply (Hfirst (S k)). lia.
      * now apply unmatched_upto_tail in Hun.
Qed.

(** With the only match of [currentTimepointId] at position [i] and the
    first record bearing the target identifier at position [j], the loop
    ends with [j - i], or with the initial [index] when [j] comes
    first. *)
Lemma title_loop_positions l : forall i j c index,
  nth_error (map timepointId l) j = Some target ->
  (forall k, k < j -> nth_error (map timepointId l) k <> Some target) ->
  nth_error l i = Some c ->
  strict_eq cur (timepointId c) = true ->
  (forall k y, k <> i -> nth_error l k = Some y ->
               strict_eq cur (timepointId y) = false) ->
  title_loop cur target l index None =
  if Nat.ltb j i then index else Z.of_nat (j - i).
Proof.
  induction l as [|y l IH]; intros i j c index Hj Hfirst Hi Hc Hothers.
  - destruct j; discriminate.
  - destruct i as [|i].
    + simpl in Hi. injection Hi as ->. simpl. rewrite Hc.
      destruct (String.eqb_spec (timepointId c) target) as [E|Hne].
      * destruct j as [|j]; auto.
        exfalso. apply (Hfirst 0); [lia|]. simpl. now rewrite E.
      * destruct j as [|j]; simpl in Hj; [congruence|].
        rewrite (title_loop_counting l j); auto.
        -- replace (Nat.ltb (S j) 0) with false by reflexivity.
           rewrite Nat.sub_0_r. lia.
        -- intros k Hk. apply (Hfirst (S k)). lia.
        -- intros k z _ Hz. apply (Hothers (S k) z); [lia | exact Hz].
    + simpl in Hi. simpl title_loop.
      rewrite (Hothers 0 y) by (simpl; auto; lia).
      destruct (String.eqb_spec (timepointId y) target) as [E|Hne].
      * destruct j as [|j]; auto.
        exfalso. apply (Hfirst 0); [lia|]. simpl. now rewrite E.
      * destruct j as [|j]; simpl in Hj; [congruence|].
        rewrite (IH i j c); auto.
        -- intros k Hk. apply (Hfirst (S k)). lia.
        -- intros k z Hk Hz. apply (Hothers (S k) z); [lia | exact Hz].
Qed.

End TitleLoop.

Lemma states_offset i j :
  states (if Nat.ltb j i then (-1)%Z else Z.of_nat (j - i)) = suffix_at i j.
Proof.
  unfold states, suffix_at.
  destruct (Nat.ltb_spec j i), (Nat.eqb_spec j i), (Nat.eqb_spec j (S i));
    try lia.
  - reflexivity.
  - replace (j - i) with 0 by lia. reflexivity.
  - replace (j - i) with 1 by lia. reflexivity.
  - destruct (Z.eqb_spec (Z.of_nat (j - i)) 0); [lia|].
    destruct (Z.eqb_spec (Z.of_nat (j - i)) 1); [lia|]. reflexivity.
Qed.

Lemma unique_ids_all api :
  unique_timepointIds api -> NoDup (map timepointId (all api)).
Proof.
  unfold unique_timepointIds. intros H.
  eapply Permutation_NoDup; [|exact H].
  apply Permutation_map. symmetry. rewrite all_eq. apply sort_docs_perm.
Qed.

Lemma nth_error_map_id l k (t : Timepoint) :
  nth_error l k = Some t ->
  nth_error (map timepointId l) k = Some (timepointId t).
Proof. intros H. now rewrite nth_error_map, H. Qed.

(** Under the invariant a [timepointId] designates one position. *)
Lemma unique_position l j k (t y : Timepoint) :
  NoDup (map timepointId l) ->
  nth_error l j = Some t -> nth_error l k = Some y ->
  timepointId y = timepointId t -> k = j.
Proof.
  intros Hnd Hj Hk E.
  apply (proj1 (NoDup_nth_error (map timepointId l)) Hnd).
  - apply nth_error_Some. rewrite (nth_error_map_id _ _ _ Hk). discriminate.
  - rewrite (nth_error_map_id _ _ _ Hk), (nth_error_map_id _ _ _ Hj).
    now rewrite E.
Qed.

(** A stored timepoint always gets a name. *)
Lemma name_of_stored t w :
  In t (docs (timepoints (this w))) ->
  exists nm, name t w = (w, Return (Some nm)).
Proof.
  intros Hin. destruct (string_dec (timepointType t) "baseline") as [E|Hne].
  - eexists. now apply name_baseline.
  - destruct (has_rank_of_In (timepointId t)
                (map timepointId (relevant_followups (this w) t))) as [k Hk].
    + apply in_map, in_relevant_followups. auto.
    + eexists. exact (name_ranked t w k Hne Hk).
Qed.

Lemma title_eq t w nm :
  name t w = (w, Return (Some nm)) ->
  title t w =
  (w, Return (nm ++ " " ++
              states (title_loop (currentTimepointId (this w)) (timepointId t)
                                 (all (this w)) (-1) None))%string).
Proof.
  intros H. unfold title, bind. rewrite H. reflexivity.
Qed.

Lemma strict_eq_false cur s : strict_eq cur s = false <-> cur <> Some s.
Proof.
  destruct cur as [v|]; simpl.
  - rewrite String.eqb_neq. split; congruence.
  - split; [discriminate | reflexivity].
Qed.

(** C6 (as stated, refuted): the claim speaks of every timepoint in the
    store.  When two stored records bear the same [timepointId], the walk
    stops at the first of them: the record that directly follows the
    current one in [all()] is then titled without ["(Prior)"]. *)
Lemma title_stops_at_first_bearer_of_timepointId :
  let w := Samples.loaded (Some "tp-cur") Samples.repeated_id in
  reachable w /\
  exists c t,
    current (this w) = Some c /\
    nth_error (all (this w)) 1 = Some c /\
    nth_error (all (this w)) 2 = Some t /\
    completion_of (name t) w = Return (Some "Follow-up 1") /\
    completion_of (title t) w = Return "Follow-up 1 " /\
    completion_of (title t) w <> Return "Follow-up 1 (Prior)".
Proof.
  split; [apply reach_retrieveTimepoints, reach_constructor|].
  do 2 eexists. repeat split; try reflexivity. vm_compute. discriminate.
Qed.

(** C6 (amended): on a store with at most one record per [timepointId],
    the title of a stored timepoint is its name, a space and a suffix set
    by its position [j] in [all()] relative to the position [i] of the
    record matching [currentTimepointId]: ["(Current)"] when [j = i],
    ["(Prior)"] when [j = i + 1], that is for the record right after the
    current one in descending date order, and nothing for every other
    record, as well as when there is no current record. *)
Theorem title_suffix_by_position t w :
  unique_timepointIds (this w) ->
  In t (all (this w)) ->
  exists nm j,
    name t w = (w, Return (Some nm)) /\
    nth_error (all (this w)) j = Some t /\
    (current (this w) = None ->
     title t w = (w, Return (nm ++ " ")%string)) /\
    (forall c, current (this w) = Some c ->
       exists i, nth_error (all (this w)) i = Some c /\
         title t w = (w, Return (nm ++ " " ++ suffix_at i j)%string)).
Proof.
  intros Huniq Hin.
  pose proof (unique_ids_all _ Huniq) as Hnd.
  destruct (In_nth_error _ _ Hin) as [j Hj].
  destruct (name_of_stored t w (proj1 (in_all _ _) Hin)) as [nm Hnm].
  exists nm, j. split; [exact Hnm|]. split; [exact Hj|].
  assert (Hfirst : forall k, k < j ->
            nth_error (map timepointId (all (this w))) k
            <> Some (timepointId t)).
  { intros k Hk E.
    destruct (nth_error (all (this w)) k) as [y|] eqn:Hy;
      rewrite nth_error_map, Hy in E; [|discriminate].
    injection E as E.
    pose proof (unique_position _ j k t y Hnd Hj Hy E). lia. }
  split.
  - intros Hcur. rewrite (title_eq t w nm Hnm).
    rewrite (title_loop_unseen _ _ (all (this w)) j).
    + reflexivity.
    + now apply nth_error_map_id.
    + intros k y _ Hy. apply strict_eq_false.
      apply (proj1 (current_None _) Hcur).
      apply in_all. eapply nth_error_In; eauto.
  - intros c Hcur. apply current_Some in Hcur. destruct Hcur as [Hcin Hid].
    apply in_all in Hcin. destruct (In_nth_error _ _ Hcin) as [i Hi].
    exists i. split; [exact Hi|].
    rewrite (title_eq t w nm Hnm).
    rewrite (title_loop_positions _ _ (all (this w)) i j c); auto.
    + now rewrite states_offset.
    + now apply nth_error_map_id.
    + rewrite Hid. simpl. apply String.eqb_refl.
    + intros k y Hk Hy. apply strict_eq_false. rewrite Hid. intros E.
      injection E as E. apply Hk.
      now apply (unique_position (all (this w)) i k c y).
Qed.

Lemma title_suffix_by_position_witness :
  let w := Samples.loaded (Some "tp-f2") Samples.visits in
  let t := with_id 1 (Samples.tp "tp-f1" "followup" 200) in
  exists nm j,
    name t w = (w, Return (Some nm)) /\
    nth_error (all (this w)) j = Some t /\
    (current (this w) = None ->
     title t w = (w, Return (nm ++ " ")%string)) /\
    (forall c, current (this w) = Some c ->
       exists i, nth_error (all (this w)) i = Some c /\
         title t w = (w, Return (nm ++ " " ++ suffix_at i j)%string)).
Proof.
  intros w t.
  assert (unique_timepointIds (this w)) as Huniq.
  { unfold unique_timepointIds; simpl.
    repeat constructor; simpl; intuition discriminate. }
  assert (In t (all (this w))) as Hin.
  { simpl. right. right. left. reflexivity. }
  exact (title_suffix_by_position t w Huniq Hin).
Defined.

(** The titles of the sample visits, most recent first. *)
Example titles_of_sample_visits :
  let w := Samples.loaded (Some "tp-f2") Samples.visits in
  map (fun t => completion_of (title t) w) (all (this w)) =
  [ Return "Follow-up 3 "; Return "Follow-up 2 (Current)";
    Return "Follow-up 1 (Prior)"; Return "Baseline " ].
Proof. reflexivity. Qed.

(** ** The theorems on the sample store *)

Lemma prior_is_latest_strictly_before_current_witness :
  let api := this (Samples.loaded (Some "tp-f2") Samples.visits) in
  let c := with_id 2 (Samples.tp "tp-f2" "followup" 300) in
  let p := with_id 1 (Samples.tp "tp-f1" "followup" 200) in
  current api = Some c /\ prior api = Some p /\
  (latestDate p < latestDate c)%Z /\
  forall q, In q (all api) -> (latestDate q < latestDate c)%Z ->
            (latestDate q <= latestDate p)%Z.
Proof.
  intros api c p.
  destruct (proj2 (prior_is_latest_strictly_before_current api) c eq_refl)
    as [H _].
  destruct (H p eq_refl) as (_ & Hlt & _ & Hmax).
  repeat split; assumption.
Defined.

Lemma name_is_baseline_or_ranked_followup_witness :
  let w := Samples.loaded None Samples.jan_mar_jun in
  let march := with_id 3 (Samples.tp "tp-mar" "followup" 20170320) in
  name march w = (w, Return (Some "Follow-up 2")).
Proof.
  intros w march.
  assert (timepointType march <> "baseline") as Hty by discriminate.
  destruct (name_is_baseline_or_ranked_followup march w) as [_ H].
  destruct (H Hty) as (_ & _ & Hrank & _).
  apply (Hrank 2). exists 1. repeat split.
  intros [|j] Hj; [discriminate | lia].
Defined.

(** * Further properties of the class *)

(** ** Filtering and sorting commute *)

Lemma filter_insert_sorted s (p : Timepoint -> bool) x l :
  StronglySorted (in_order s) l ->
  filter p (insert_sorted s x l) =
  if p x then insert_sorted s x (filter p l) else filter p l.
Proof.
  induction 1 as [|y l Hs IH Hy].
  - simpl. now destruct (p x).
  - simpl insert_sorted. destruct (precedes s y x) eqn:E.
    + simpl. rewrite IH. destruct (p y), (p x); simpl; now rewrite ?E.
    + assert (Hx : Forall (in_order s x) (y :: l)).
      { constructor; [exact E|].
        eapply Forall_impl; [|exact Hy].
        intros z Hz. now apply in_order_trans with y. }
      change (filter p (x :: y :: l))
        with (if p x then x :: filter p (y :: l) else filter p (y :: l)).
      destruct (p x); auto.
      symmetry. apply insert_sorted_head.
      rewrite Forall_forall in *. intros z Hz. apply Hx.
      now apply filter_In in Hz.
Qed.

Lemma sort_docs_filter s (p : Timepoint -> bool) l :
  sort_docs s (filter p l) = filter p (sort_docs s l).
Proof.
  induction l as [|x l IH]; simpl; auto.
  rewrite filter_insert_sorted by apply sort_docs_sorted.
  destruct (p x); simpl; now rewrite IH.
Qed.

Lemma hd_error_filter_In {A} (p : A -> bool) l x :
  hd_error (filter p l) = Some x -> In x l /\ p x = true.
Proof.
  intros H. apply filter_In.
  destruct (filter p l); [discriminate|]. injection H as ->. now left.
Qed.

(** ** [all] *)

Lemma descending_strict l :
  StronglySorted (fun a b : Timepoint => (latestDate b <= latestDate a)%Z) l ->
  NoDup (map latestDate l) ->
  StronglySorted (fun a b => (latestDate b < latestDate a)%Z) l.
Proof.
  induction 1 as [|a l Hs IH Ha]; intros Hnd; constructor;
    inversion Hnd as [|? ? Hnot Hnd']; subst; auto.
  rewrite Forall_forall in *. intros b Hb.
  specialize (Ha b Hb).
  assert (latestDate b <> latestDate a); [|lia].
  intros E. apply Hnot. rewrite <- E. now apply in_map.
Qed.

(** X1: [all()] lists every stored document exactly once, never one that
    is not stored, with [latestDate] never increasing along the list; when
    the stored dates are pairwise distinct the dates strictly decrease. *)
Theorem all_is_descending_permutation api :
  Permutation (all api) (docs (timepoints api)) /\
  StronglySorted (fun a b => (latestDate b <= latestDate a)%Z) (all api) /\
  (NoDup (map latestDate (docs (timepoints api))) ->
   StronglySorted (fun a b => (latestDate b < latestDate a)%Z) (all api)).
Proof.
  assert (Hp : Permutation (all api) (docs (timepoints api)))
    by (rewrite all_eq; apply sort_docs_perm).
  split; [exact Hp|]. split; [apply all_descending|].
  intros Hnd. apply descending_strict; [apply all_descending|].
  eapply Permutation_NoDup; [|exact Hnd].
  apply Permutation_map. now symmetry.
Qed.

(** ** [study] *)

Lemma study_each_spec uid l : forall result,
  (forall t, In t l -> exists k, _id t = Some k) ->
  NoDup (map _id l) ->
  (forall t, In t l -> ~ In (_id t) (map _id (docs result))) ->
  exists m,
    study_each uid l result =
    Return (mkCollection
              (docs result ++
               filter (fun t => contains (studyInstanceUids t) uid) l) m).
Proof.
  induction l as [|t l IH]; intros result Hid Hnd Hnew.
  - simpl. exists (next_id result). rewrite app_nil_r. now destruct result.
  - simpl. inversion Hnd as [|? ? Ht Hl]; subst.
    destruct (contains (studyInstanceUids t) uid).
    + destruct (Hid t (or_introl eq_refl)) as [k Hk].
      unfold insert. rewrite Hk.
      rewrite has_id_false by (rewrite <- Hk; apply Hnew; now left).
      destruct (IH (mkCollection (docs result ++ [t])
                                 (Nat.max (next_id result) (S k))))
        as [m Hm]; auto.
      * intros t' Ht'. apply Hid. now right.
      * intros t' Ht'. simpl. rewrite map_app, in_app_iff. simpl.
        intros [Hin|[E|[]]].
        -- apply (Hnew t'); auto. now right.
        -- apply Ht. rewrite E. now apply in_map.
      * exists m. rewrite Hm. simpl. now rewrite <- app_assoc.
    + apply IH; auto.
      * intros t' Ht'. apply Hid. now right.
      * intros t' Ht'. apply Hnew. now right.
Qed.

Lemma study_spec api uid :
  wf (timepoints api) ->
  study api uid =
  Return (filter (fun t => contains (studyInstanceUids t) uid) (all api)).
Proof.
  intros [Hnd Hall]. unfold study.
  destruct (study_each_spec uid (all api) Minimongo.empty) as [m Hm].
  - intros t Ht. apply in_all in Ht. rewrite Forall_forall in Hall.
    destruct (Hall t Ht) as (k & Hk & _). now exists k.
  - eapply Permutation_NoDup; [|exact Hnd].
    apply Permutation_map. symmetry. rewrite all_eq. apply sort_docs_perm.
  - simpl. tauto.
  - rewrite Hm. unfold find; simpl. now rewrite filter_all, sort_docs_unsorted.
Qed.

Lemma contains_In l x : contains l x = true <-> In x l.
Proof.
  unfold contains. rewrite existsb_exists. split.
  - intros (y & Hy & E). apply String.eqb_eq in E. now subst.
  - intros H. exists x. split; auto. apply String.eqb_refl.
Qed.

(** X2: on a well-formed collection [study(uid)] returns, without
    throwing, the entries of [all()] whose [studyInstanceUids] contain
    [uid], in the order [all()] has them: a stored record is returned
    exactly when it is linked to the study, and the result is again
    ordered by [latestDate], most recent first. *)
Theorem study_is_filtered_all api uid :
  wf (timepoints api) ->
  exists l,
    study api uid = Return l /\
    l = filter (fun t => contains (studyInstanceUids t) uid) (all api) /\
    (forall t, In t l <->
               In t (docs (timepoints api)) /\ In uid (studyInstanceUids t)) /\
    StronglySorted (fun a b => (latestDate b <= latestDate a)%Z) l.
Proof.
  intros Hwf. eexists. split; [now apply study_spec|]. split; [reflexivity|].
  split.
  - intros t. now rewrite filter_In, in_all, contains_In.
  - pose proof (all_descending api) as Hs.
    induction Hs as [|a l Hs IH Ha]; simpl; [constructor|].
    destruct (contains (studyInstanceUids a) uid); auto.
    constructor; auto.
    rewrite Forall_forall in *. intros b Hb. apply Ha.
    now apply filter_In in Hb.
Qed.

Lemma studies_world_reachable : reachable Studies.world.
Proof. apply reach_retrieveTimepoints, reach_constructor. Qed.

Lemma study_is_filtered_all_witness :
  exists l,
    study Studies.api "1.2.3" = Return l /\
    l = filter (fun t => contains (studyInstanceUids t) "1.2.3")
               (all Studies.api) /\
    (forall t, In t l <->
               In t (docs (timepoints Studies.api)) /\
               In "1.2.3" (studyInstanceUids t)) /\
    StronglySorted (fun a b => (latestDate b <= latestDate a)%Z) l.
Proof.
  exact (study_is_filtered_all Studies.api "1.2.3"
           (reachable_wf _ studies_world_reachable)).
Defined.

(** ** [key] and [study] in reachable states *)

Lemma list_shape {A} (l : list A) :
  l = [] \/ (exists a, l = [a]) \/ (exists a b, l = [a; b]) \/
  exists a b mid z, l = a :: b :: mid ++ [z].
Proof.
  destruct l as [|a [|b l]]; [now left | right; left; now exists a |].
  right. right.
  destruct (exists_last (l := b :: l)) as (l' & z & E); [discriminate|].
  rewrite E. destruct l' as [|b' mid]; simpl.
  - left. now exists a, z.
  - right. now exists a, b', mid, z.
Qed.

(** X3: on a well-formed collection [key()] returns at most three
    records, all of them stored ones, beginning with the first entry of
    [all()] (the most recent record) and ending with its last entry (the
    oldest record). *)
Theorem key_bounds api :
  wf (timepoints api) ->
  exists k,
    key api = Return k /\
    List.length k <= 3 /\
    (forall t, In t k -> In t (docs (timepoints api))) /\
    hd_error k = hd_error (all api) /\
    (forall d, last k d = last (all api) d).
Proof.
  intros Hwf. exists (key_entries (all api)).
  split; [now apply key_spec|].
  assert (Hin : forall t, In t (key_entries (all api)) ->
                          In t (docs (timepoints api))).
  { intros t Ht. apply in_all.
    unfold key_entries, entries_at in Ht.
    apply in_map_iff in Ht. destruct Ht as ([i t'] & E & Ht); simpl in E.
    subst. apply filter_In in Ht. destruct Ht as [Ht _].
    now apply in_combine_r in Ht. }
  destruct key_entries_shapes as (H0 & H1 & H2 & H3).
  destruct (list_shape (all api))
    as [E|[(a & E)|[(a & b & E)|(a & b & mid & z & E)]]];
    rewrite E in *; rewrite ?H0, ?H1, ?H2, ?H3 in *.
  - repeat split; auto.
  - repeat split; auto.
  - repeat split; auto.
  - repeat split; auto. intros d.
    change (a :: b :: mid ++ [z]) with ((a :: b :: mid) ++ [z]).
    now rewrite last_last.
Qed.

Lemma key_bounds_witness :
  exists k,
    key Studies.api = Return k /\
    List.length k <= 3 /\
    (forall t, In t k -> In t (docs (timepoints Studies.api))) /\
    hd_error k = hd_error (all Studies.api) /\
    (forall d, last k d = last (all Studies.api) d).
Proof.
  exact (key_bounds Studies.api (reachable_wf _ studies_world_reachable)).
Defined.

(** X4: in every state a [TimepointApi] object can reach -- constructed,
    then any of its methods run under any configuration -- neither
    [key()] nor [study(uid)] throws: the insertions into their result
    collections never meet a duplicate [_id]. *)
Theorem key_and_study_never_throw w :
  reachable w ->
  (exists k, key (this w) = Return k) /\
  (forall uid, exists l, study (this w) uid = Return l).
Proof.
  intros Hr. apply reachable_wf in Hr. split.
  - eexists. now apply key_spec.
  - intros uid. eexists. now apply study_spec.
Qed.

Lemma key_and_study_never_throw_witness :
  (exists k, key (this Studies.world) = Return k) /\
  (forall uid, exists l, study (this Studies.world) uid = Return l).
Proof.
  exact (key_and_study_never_throw Studies.world studies_world_reachable).
Defined.

(** ** Retrieval that does not complete, and retrieval on a filled store *)

(** X5: when the retrieval function is present but its promise is
    rejected or never settles, [retrieveTimepoints] still returns a
    promise, which stays pending for ever -- [reject] is never called --
    and neither the store nor the log changes. *)
Theorem retrieveTimepoints_unsettled cfg de retrievalFn patientId w :
  dataExchange cfg = Some de ->
  DataExchange.retrieve de = Some retrievalFn ->
  retrievalFn patientId = Rejected \/ retrievalFn patientId = Pending ->
  retrieveTimepoints cfg patientId w = (w, Return (Some Pending)).
Proof.
  intros Hde Hf Hp. run_method. rewrite Hde, Hf.
  destruct Hp as [-> | ->]; reflexivity.
Qed.

Lemma retrieveTimepoints_unsettled_witness :
  let de := DataExchange.mk (Some (fun _ => Rejected)) None None None None in
  retrieveTimepoints (mkConfiguration (Some de)) (Some "patient-1")
                     Studies.world
  = (Studies.world, Return (Some Pending)).
Proof.
  exact (retrieveTimepoints_unsettled
           (mkConfiguration
              (Some (DataExchange.mk (Some (fun _ => Rejected))
                                     None None None None)))
           _ _ (Some "patient-1") Studies.world
           eq_refl eq_refl (or_introl eq_refl)).
Defined.

Lemma timepointId_assign_ids n data :
  map timepointId (assign_ids n data) = map timepointId data.
Proof.
  revert n; induction data as [|t data IH]; intros n; simpl; auto.
  now rewrite IH.
Qed.

Lemma NoDup_app_disjoint {A} (l1 l2 : list A) x :
  NoDup (l1 ++ l2) -> In x l1 -> In x l2 -> False.
Proof.
  induction l1 as [|a l1 IH]; simpl; [tauto|].
  intros Hnd [->|Hin] Hin2; inversion Hnd as [|? ? Hnot Hnd']; subst.
  - apply Hnot. apply in_or_app. now right.
  - now apply IH.
Qed.

(** X6: [retrieveTimepoints] does not keep the store at one record per
    [timepointId]: whenever a fetched record bears the [timepointId] of a
    record already stored -- as in a second retrieval of the same data --
    the store holds that [timepointId] twice once the retrieval has
    completed. *)
Theorem retrieveTimepoints_repeats_timepointId
    cfg de retrievalFn patientId data w :
  dataExchange cfg = Some de ->
  DataExchange.retrieve de = Some retrievalFn ->
  retrievalFn patientId = Resolved data ->
  (exists t s, In t data /\ In s (docs (timepoints (this w))) /\
               timepointId t = timepointId s) ->
  ~ unique_timepointIds (this (fst (retrieveTimepoints cfg patientId w))).
Proof.
  intros Hde Hf Hp (t & s & Ht & Hs & E) Huniq.
  rewrite (retrieveTimepoints_resolved cfg de retrievalFn patientId data w
             Hde Hf Hp) in Huniq.
  unfold unique_timepointIds in Huniq; simpl in Huniq.
  rewrite map_app, timepointId_assign_ids in Huniq.
  apply (NoDup_app_disjoint _ _ (timepointId s) Huniq).
  - now apply in_map.
  - rewrite <- E. now apply in_map.
Qed.

Lemma retrieveTimepoints_repeats_timepointId_witness :
  ~ unique_timepointIds
      (this (fst (retrieveTimepoints (Samples.retrieving Studies.visits) None
                                     Studies.world))).
Proof.
  apply (retrieveTimepoints_repeats_timepointId
           (Samples.retrieving Studies.visits) _ _ None Studies.visits
           Studies.world eq_refl eq_refl eq_refl).
  exists (Studies.visit "tp-base" "baseline" 100 ["1.2.1"]).
  exists (with_id 0 (Studies.visit "tp-base" "baseline" 100 ["1.2.1"])).
  repeat split; simpl; auto.
Defined.

(** ** [storeTimepoints] *)

(** X7: [storeTimepoints] never changes the store, whatever the
    configuration and whatever becomes of the promise.  When the store
    function is present it receives the stored documents in insertion
    order (not in the date order of [all()]), and the completion message
    is logged exactly when the promise obtained for these documents
    resolves. *)
Theorem storeTimepoints_reads_only cfg w :
  this (fst (storeTimepoints cfg w)) = this w /\
  forall de storeFn,
    dataExchange cfg = Some de -> DataExchange.store de = Some storeFn ->
    console (fst (storeTimepoints cfg w)) =
    console w ++
    [Info (Text "Preparing to store timepoints");
     Info (Data (docs (timepoints (this w))))] ++
    match storeFn (docs (timepoints (this w))) with
    | Resolved _ => [Info (Text "Timepoint storage completed")]
    | _ => []
    end.
Proof.
  split.
  - run_method. destruct (dataExchange cfg) as [de|]; simpl; auto.
    destruct (DataExchange.store de) as [f|]; simpl; auto.
    destruct (f _) as [[]| |]; reflexivity.
  - intros de f Hde Hf. run_method. rewrite Hde, Hf. unfold find.
    rewrite filter_all, sort_docs_unsorted.
    destruct (f _) as [[]| |]; simpl; rewrite <- ?app_assoc; simpl;
      try reflexivity; now rewrite <- app_assoc.
Qed.

(** ** [disassociateStudy] *)

(** What a resolved disassociation leads to: the store is emptied and a
    retrieval without patient identifier runs on it. *)
Lemma disassociateStudy_resolved
    cfg de disassociateFn timepointIds studyInstanceUid w :
  dataExchange cfg = Some de ->
  DataExchange.disassociate de = Some disassociateFn ->
  disassociateFn timepointIds studyInstanceUid = Resolved tt ->
  disassociateStudy cfg timepointIds studyInstanceUid w =
  (fst (retrieveTimepoints cfg None
          (mkWorld
             (mkApi (currentTimepointId (this w))
                    (remove SelAll (timepoints (this w))))
             (console w ++ [Info (Text "Disassociation completed")]))),
   Return tt).
Proof.
  intros Hde Hf Hp.
  unfold disassociateStudy, getDataExchange.
  unfold bind at 1. rewrite Hde. unfold ret at 1. rewrite Hf.
  unfold bind at 1. rewrite Hp. unfold then_.
  unfold bind, log, get_timepoints, set_timepoints; simpl.
  destruct (retrieveTimepoints cfg None _) as [w2 [r|e]]; reflexivity.
Qed.

(** X8: [disassociateStudy] touches the store only when the promise of
    the disassociation function resolves.  It then empties the store and
    retrieves again, without a patient identifier: if that retrieval
    resolves, [all()] holds exactly the newly fetched records; if the
    retrieval function is missing or its promise does not resolve, the
    store stays empty. *)
Theorem disassociateStudy_clears_then_retrieves
    cfg de disassociateFn timepointIds studyInstanceUid w :
  dataExchange cfg = Some de ->
  DataExchange.disassociate de = Some disassociateFn ->
  let w' := fst (disassociateStudy cfg timepointIds studyInstanceUid w) in
  completion_of (disassociateStudy cfg timepointIds studyInstanceUid) w
    = Return tt /\
  (disassociateFn timepointIds studyInstanceUid <> Resolved tt -> w' = w) /\
  (disassociateFn timepointIds studyInstanceUid = Resolved tt ->
   (forall retrievalFn data,
      DataExchange.retrieve de = Some retrievalFn ->
      retrievalFn None = Resolved data ->
      map fields (all (this w')) =
      sort_docs LatestDateDesc (map fields data)) /\
   (DataExchange.retrieve de = None \/
    (exists retrievalFn,
       DataExchange.retrieve de = Some retrievalFn /\
       forall data, retrievalFn None <> Resolved data) ->
    docs (timepoints (this w')) = [])).
Proof.
  intros Hde Hf w'. subst w'. unfold completion_of.
  destruct (disassociateFn timepointIds studyInstanceUid) as [[]| |] eqn:Hp.
  - rewrite (disassociateStudy_resolved cfg de disassociateFn
               timepointIds studyInstanceUid w Hde Hf Hp).
    set (w1 := mkWorld
                 (mkApi (currentTimepointId (this w))
                        (remove SelAll (timepoints (this w))))
                 (console w ++ [Info (Text "Disassociation completed")])).
    assert (Hempty : docs (timepoints (this w1)) = []).
    { simpl. induction (docs (timepoints (this w))); auto. }
    clearbody w1. simpl fst. simpl snd.
    split; [reflexivity|]. split; [congruence|]. intros _. split.
    + intros r data Hr Hd.
      rewrite (retrieveTimepoints_resolved cfg de r None data w1 Hde Hr Hd).
      simpl fst. rewrite all_eq. simpl docs. rewrite Hempty. simpl app.
      rewrite sort_docs_map by apply latestDate_fields.
      now rewrite fields_assign_ids.
    + intros Hnone.
      assert (E : retrieveTimepoints cfg None w1 = (w1, Return None) \/
                  retrieveTimepoints cfg None w1
                  = (w1, Return (Some Pending))).
      { destruct Hnone as [Hr|(r & Hr & Hd)].
        - left. run_method. now rewrite Hde, Hr.
        - right. run_method. rewrite Hde, Hr.
          destruct (r None) as [data| |] eqn:Hr0; auto.
          now destruct (Hd data). }
      destruct E as [-> | ->]; exact Hempty.
  - run_method. rewrite Hde, Hf, Hp. simpl.
    split; [reflexivity|]. split; [now destruct w|]. discriminate.
  - run_method. rewrite Hde, Hf, Hp. simpl.
    split; [reflexivity|]. split; [now destruct w|]. discriminate.
Qed.

Lemma disassociateStudy_clears_then_retrieves_witness :
  let de := DataExchange.mk (Some (fun _ => Resolved Samples.visits))
                            None None None
                            (Some (fun _ _ => Resolved tt)) in
  let w' := fst (disassociateStudy (mkConfiguration (Some de))
                                   ["tp-f1"] "1.2.3" Studies.world) in
  map fields (all (this w')) =
  sort_docs LatestDateDesc (map fields Samples.visits).
Proof.
  intros de w'.
  destruct (disassociateStudy_clears_then_retrieves
              (mkConfiguration (Some de)) de (fun _ _ => Resolved tt)
              ["tp-f1"] "1.2.3" Studies.world eq_refl eq_refl)
    as (_ & _ & H).
  destruct (H eq_refl) as [H' _].
  exact (H' (fun _ => Resolved Samples.visits) Samples.visits
            eq_refl eq_refl).
Defined.

(** ** [removeTimepoint] and [updateTimepoint] once the promise resolved *)

Lemma removeTimepoint_resolved cfg de removeFn tid w :
  dataExchange cfg = Some de ->
  DataExchange.remove de = Some removeFn ->
  removeFn tid = Resolved tt ->
  this (fst (removeTimepoint cfg tid w)) =
  mkApi (currentTimepointId (this w))
        (remove (SelTimepointId (Some tid)) (timepoints (this w))).
Proof. intros Hde Hf Hp. run_method. now rewrite Hde, Hf, Hp. Qed.

(** X9: once the promise of the removal function has resolved,
    [removeTimepoint(id)] has dropped every stored record bearing that
    [timepointId] and nothing else: [all()] is what it was before, less
    those records and in the same order.  If the removed identifier was
    the configured [currentTimepointId], which the call leaves as it is,
    [current()] and [prior()] are none from then on and
    [currentAndPrior()] is empty. *)
Theorem removeTimepoint_drops_timepointId cfg de removeFn tid w :
  dataExchange cfg = Some de ->
  DataExchange.remove de = Some removeFn ->
  removeFn tid = Resolved tt ->
  let api' := this (fst (removeTimepoint cfg tid w)) in
  all api' =
    filter (fun t => negb (String.eqb tid (timepointId t))) (all (this w)) /\
  (forall t, In t (all api') <-> In t (all (this w)) /\ timepointId t <> tid)
  /\
  currentTimepointId api' = currentTimepointId (this w) /\
  (currentTimepointId (this w) = Some tid ->
   current api' = None /\ prior api' = None /\ currentAndPrior api' = []).
Proof.
  intros Hde Hf Hp api'. subst api'.
  rewrite (removeTimepoint_resolved cfg de removeFn tid w Hde Hf Hp).
  assert (Hall : all (mkApi (currentTimepointId (this w))
                        (remove (SelTimepointId (Some tid))
                                (timepoints (this w)))) =
                 filter (fun t => negb (String.eqb tid (timepointId t)))
                        (all (this w))).
  { rewrite !all_eq. simpl. now rewrite sort_docs_filter. }
  assert (Hin : forall t,
            In t (all (mkApi (currentTimepointId (this w))
                        (remove (SelTimepointId (Some tid))
                                (timepoints (this w))))) <->
            In t (all (this w)) /\ timepointId t <> tid).
  { intros t. rewrite Hall, filter_In, negb_true_iff, String.eqb_neq.
    intuition congruence. }
  split; [exact Hall|]. split; [exact Hin|]. split; [reflexivity|].
  intros Hcur.
  assert (Hc : current (mkApi (currentTimepointId (this w))
                          (remove (SelTimepointId (Some tid))
                                  (timepoints (this w)))) = None).
  { apply current_None. intros t Ht. apply in_all in Ht. apply Hin in Ht.
    simpl. rewrite Hcur. intros E. injection E as E. now apply (proj2 Ht). }
  unfold currentAndPrior, prior. now rewrite Hc.
Qed.

Lemma removeTimepoint_drops_timepointId_witness :
  let api' := this (fst (removeTimepoint Samples.exchanging "tp-f2"
                                         Studies.world)) in
  all api' =
    filter (fun t => negb (String.eqb "tp-f2" (timepointId t)))
           (all (this Studies.world)) /\
  (forall t, In t (all api') <->
             In t (all (this Studies.world)) /\ timepointId t <> "tp-f2") /\
  currentTimepointId api' = currentTimepointId (this Studies.world) /\
  (currentTimepointId (this Studies.world) = Some "tp-f2" ->
   current api' = None /\ prior api' = None /\ currentAndPrior api' = []).
Proof.
  exact (removeTimepoint_drops_timepointId
           Samples.exchanging Samples.exchange _ "tp-f2" Studies.world
           eq_refl eq_refl eq_refl).
Defined.

Lemma update_first_no_match sel m l :
  (forall t, In t l -> matches sel t = false) -> update_first sel m l = l.
Proof.
  induction l as [|t l IH]; simpl; auto. intros H.
  rewrite (H t) by now left. f_equal. apply IH. intros s Hs. apply H. now right.
Qed.

Lemma update_first_at sel m l1 t l2 :
  (forall s, In s l1 -> matches sel s = false) ->
  matches sel t = true ->
  update_first sel m (l1 ++ t :: l2) = l1 ++ modify m t :: l2.
Proof.
  induction l1 as [|s l1 IH]; simpl; intros H Ht.
  - now rewrite Ht.
  - rewrite (H s) by now left. f_equal. apply IH; auto.
Qed.

Lemma update_first_length sel m l :
  List.length (update_first sel m l) = List.length l.
Proof.
  induction l as [|t l IH]; simpl; auto.
  destruct (matches sel t); simpl; auto.
Qed.

(** X10: once the promise of the update function has resolved,
    [updateTimepoint(id, query)] has applied the modifier to the first
    stored record bearing that [timepointId], in insertion order, and to
    no other record, even if several bear it; no record is added or
    dropped and every [_id] stays where it was.  When no stored record
    bears the identifier the store is unchanged. *)
Theorem updateTimepoint_modifies_first_match cfg de updateFn tid q w :
  dataExchange cfg = Some de ->
  DataExchange.update de = Some updateFn ->
  updateFn tid q = Resolved tt ->
  let before := docs (timepoints (this w)) in
  let after := docs (timepoints_after (updateTimepoint cfg tid q) w) in
  map _id after = map _id before /\
  List.length after = List.length before /\
  ((forall t, In t before -> timepointId t <> tid) -> after = before) /\
  (forall l1 t l2,
     before = l1 ++ t :: l2 -> timepointId t = tid ->
     (forall s, In s l1 -> timepointId s <> tid) ->
     after = l1 ++ modify q t :: l2).
Proof.
  intros Hde Hf Hp before after.
  assert (E : after =
              update_first (SelTimepointId (Some tid)) q before).
  { subst after. run_method. now rewrite Hde, Hf, Hp. }
  rewrite E. split; [apply map_id_update_first|].
  split; [apply update_first_length|]. split.
  - intros H. apply update_first_no_match. intros t Ht. simpl.
    apply String.eqb_neq. intros E'. now apply (H t Ht).
  - intros l1 t l2 Hsplit Ht Hl1. rewrite Hsplit.
    apply update_first_at.
    + intros s Hs. simpl. apply String.eqb_neq. intros E'.
      now apply (Hl1 s Hs).
    + simpl. apply String.eqb_eq. now symmetry.
Qed.

Lemma updateTimepoint_modifies_first_match_witness :
  let before := docs (timepoints (this Studies.world)) in
  let after :=
    docs (timepoints_after
            (updateTimepoint Samples.exchanging "tp-f1" [SetLatestDate 250])
            Studies.world) in
  map _id after = map _id before /\
  List.length after = List.length before /\
  ((forall t, In t before -> timepointId t <> "tp-f1") -> after = before) /\
  (forall l1 t l2,
     before = l1 ++ t :: l2 -> timepointId t = "tp-f1" ->
     (forall s, In s l1 -> timepointId s <> "tp-f1") ->
     after = l1 ++ modify [SetLatestDate 250] t :: l2).
Proof.
  exact (updateTimepoint_modifies_first_match
           Samples.exchanging Samples.exchange _ "tp-f1" [SetLatestDate 250]
           Studies.world eq_refl eq_refl eq_refl).
Defined.

(** ** [lock] *)

Lemma hd_filter_split {A} (p : A -> bool) l x :
  hd_error (filter p l) = Some x ->
  exists l1 l2,
    l = l1 ++ x :: l2 /\ (forall y, In y l1 -> p y = false) /\ p x = true.
Proof.
  induction l as [|a l IH]; simpl; [discriminate|].
  destruct (p a) eqn:E; simpl.
  - intros H. injection H as <-. exists [], l. repeat split; auto.
    intros y [].
  - intros H. destruct (IH H) as (l1 & l2 & -> & Hl1 & Hx).
    exists (a :: l1), l2. repeat split; auto.
    intros y [<-|Hy]; auto.
Qed.

Lemma hd_filter_at {A} (p : A -> bool) l1 x l2 :
  (forall y, In y l1 -> p y = false) -> p x = true ->
  hd_error (filter p (l1 ++ x :: l2)) = Some x.
Proof.
  induction l1 as [|a l1 IH]; simpl; intros H Hx.
  - now rewrite Hx.
  - rewrite (H a) by now left. apply IH; auto.
Qed.

Lemma current_split api c :
  current api = Some c ->
  exists l1 l2,
    docs (timepoints api) = l1 ++ c :: l2 /\
    (forall y, In y l1 ->
       matches (SelTimepointId (currentTimepointId api)) y = false) /\
    matches (SelTimepointId (currentTimepointId api)) c = true.
Proof.
  unfold current, findOne, find. rewrite sort_docs_unsorted.
  apply hd_filter_split.
Qed.

Lemma lock_docs w c l1 l2 :
  wf (timepoints (this w)) ->
  current (this w) = Some c ->
  docs (timepoints (this w)) = l1 ++ c :: l2 ->
  docs (timepoints_after lock w) = l1 ++ locked_copy c :: l2.
Proof.
  intros [Hnd Hall] Hc Hsplit. run_method. rewrite Hc. simpl.
  rewrite Hsplit in *. rewrite Forall_forall in Hall.
  destruct (Hall c) as (i & Hi & _); [apply in_or_app; right; now left|].
  rewrite Hi. apply update_first_at.
  - intros s Hs. simpl.
    destruct (_id s) as [j|] eqn:Hj; auto.
    apply Nat.eqb_neq. intros ->.
    rewrite map_app in Hnd. simpl in Hnd. rewrite Hi in Hnd.
    apply (NoDup_app_disjoint _ _ (Some j) Hnd).
    + rewrite <- Hj. now apply in_map.
    + now left.
  - simpl. rewrite Hi. apply Nat.eqb_refl.
Qed.

(** X11: on a well-formed collection with a current record, [lock()]
    replaces that record, in place, by a copy that differs from it at most
    in [locked], which is now true, and leaves every other document as it
    was; [current()] then returns the locked copy, and locking again
    changes nothing. *)
Theorem lock_sets_flag_on_current_only w c :
  wf (timepoints (this w)) ->
  current (this w) = Some c ->
  let w' := fst (lock w) in
  (exists l1 l2,
     docs (timepoints (this w)) = l1 ++ c :: l2 /\
     docs (timepoints (this w')) = l1 ++ locked_copy c :: l2) /\
  locked_copy c =
    mkTimepoint (_id c) (timepointId c) (patientId c) (timepointType c)
                (latestDate c) (studyInstanceUids c) true /\
  current (this w') = Some (locked_copy c) /\
  timepoints_after lock w' = timepoints (this w').
Proof.
  intros Hwf Hc w'.
  destruct (current_split _ _ Hc) as (l1 & l2 & Hsplit & Hl1 & Hm).
  pose proof (lock_docs w c l1 l2 Hwf Hc Hsplit) as Hdocs.
  assert (Hcur' : currentTimepointId (this w') = currentTimepointId (this w)).
  { subst w'. run_method. now destruct (current (this w)). }
  assert (Hc' : current (this w') = Some (locked_copy c)).
  { unfold current, findOne, find. rewrite sort_docs_unsorted, Hcur'.
    unfold timepoints_after in Hdocs. fold w' in Hdocs. rewrite Hdocs.
    apply hd_filter_at; auto. }
  split; [now exists l1, l2|].
  split; [reflexivity|].
  split; [exact Hc'|].
  pose proof (wf_lock w Hwf) as Hwf'. unfold timepoints_after in Hwf'.
  fold w' in Hwf'.
  unfold timepoints_after in Hdocs. fold w' in Hdocs.
  pose proof (lock_docs w' (locked_copy c) l1 l2 Hwf' Hc' Hdocs) as Hdocs'.
  assert (Hn : next_id (timepoints_after lock w')
               = next_id (timepoints (this w'))).
  { run_method. now destruct (current (this w')). }
  destruct (timepoints_after lock w') as [d n],
           (timepoints (this w')) as [d' n']; simpl in *.
  now subst.
Qed.

Lemma lock_sets_flag_on_current_only_witness :
  let c := with_id 2 (Studies.visit "tp-f2" "followup" 300 ["1.2.3"]) in
  let w' := fst (lock Studies.world) in
  current (this w') = Some (locked_copy c) /\
  timepoints_after lock w' = timepoints (this w').
Proof.
  intros c w'.
  destruct (lock_sets_flag_on_current_only Studies.world c
              (reachable_wf _ studies_world_reachable) eq_refl)
    as (_ & _ & H1 & H2).
  split; assumption.
Defined.

(** ** [baseline] *)

(** X12: [baseline()] is none exactly when no stored record has the type
    [baseline]; otherwise it returns the stored baseline record that was
    inserted first, and [name] calls that record ["Baseline"] without
    logging anything. *)
Theorem baseline_is_first_stored_baseline api :
  (baseline api = None <->
   forall t, In t (docs (timepoints api)) -> timepointType t <> "baseline") /\
  (forall b, baseline api = Some b ->
     timepointType b = "baseline" /\
     (exists l1 l2,
        docs (timepoints api) = l1 ++ b :: l2 /\
        forall t, In t l1 -> timepointType t <> "baseline") /\
     forall logged,
       name b (mkWorld api logged) = (mkWorld api logged, Return (Some "Baseline"))).
Proof.
  split.
  - unfold baseline. rewrite findOne_None. split; intros H t Ht.
    + specialize (H t Ht). unfold matches in H.
      apply String.eqb_neq in H. congruence.
    + unfold matches. apply String.eqb_neq. specialize (H t Ht). congruence.
  - intros b Hb. unfold baseline, findOne, find in Hb.
    rewrite sort_docs_unsorted in Hb.
    apply hd_filter_split in Hb. destruct Hb as (l1 & l2 & Hsplit & Hl1 & Hm).
    unfold matches in Hm. apply String.eqb_eq in Hm.
    split; [now symmetry|]. split.
    + exists l1, l2. split; auto. intros t Ht E.
      specialize (Hl1 t Ht). unfold matches in Hl1.
      apply String.eqb_neq in Hl1. congruence.
    + intros logged. apply name_baseline. now symmetry.
Qed.

(** ** [currentAndPrior] within [all] *)

(** X13: whatever the store holds, [currentAndPrior()] has at most two
    entries, each of them a stored record, and a second entry is dated
    strictly before the first. *)
Theorem currentAndPrior_descending api :
  List.length (currentAndPrior api) <= 2 /\
  (forall t, In t (currentAndPrior api) -> In t (all api)) /\
  StronglySorted (fun a b => (latestDate b < latestDate a)%Z)
                 (currentAndPrior api).
Proof.
  unfold currentAndPrior.
  destruct (current api) as [c|] eqn:Hc;
    [|repeat split; simpl; auto; [tauto | constructor]].
  destruct (current_Some _ _ Hc) as [Hcin _].
  assert (Hone : List.length [c] <= 2 /\
                 (forall t, In t [c] -> In t (all api)) /\
                 StronglySorted
                   (fun a b => (latestDate b < latestDate a)%Z) [c]).
  { repeat split; simpl; auto.
    - intros t [<-|[]]. now apply in_all.
    - repeat constructor. }
  destruct (prior api) as [p|] eqn:Hp; [|exact Hone].
  destruct (id_neq (_id p) (_id c)); [|exact Hone].
  unfold prior in Hp. rewrite Hc in Hp. apply findOne_Some in Hp.
  destruct Hp as (Hpin & Hm & _). simpl in Hm. apply Z.ltb_lt in Hm.
  repeat split; simpl; auto.
  - intros t [<-|[<-|[]]]; now apply in_all.
  - repeat constructor. exact Hm.
Qed.

(** ** [prior] and the record titled ["(Prior)"] *)


Lemma sorted_split {A} (R : A -> A -> Prop) l1 c l2 :
  StronglySorted R (l1 ++ c :: l2) ->
  (forall a, In a l1 -> R a c) /\ (forall b, In b l2 -> R c b).
Proof.
  induction l1 as [|x l1 IH]; simpl; intros Hs;
    inversion Hs as [|? ? Hs' Hall]; subst.
  - split; [intros a []|]. now apply Forall_forall.
  - destruct (IH Hs') as [H1 H2]. split; auto.
    intros a [<-|Ha]; auto.
    rewrite Forall_forall in Hall. apply Hall, in_or_app. right. now left.
Qed.

Lemma filter_none {A} (p : A -> bool) l :
  (forall x, In x l -> p x = false) -> filter p l = [].
Proof.
  induction l as [|a l IH]; simpl; auto. intros H.
  rewrite (H a) by now left. apply IH. intros x Hx. apply H. now right.
Qed.




(** ** [title] of a timepoint that is not stored *)

Section TitleLoopWithoutTarget.

Variable cur : option string.
Variable target : string.

(** When no entry bears the target identifier the loop runs to the end. *)
Lemma title_loop_counting_to_end l : forall index n,
  (forall y, In y l -> timepointId y <> target) ->
  (forall y, In y l -> strict_eq cur (timepointId y) = false) ->
  title_loop cur target l index (Some n) =
  match l with
  | [] => index
  | _ :: _ => (n + Z.of_nat (List.length l) - 1)%Z
  end.
Proof.
  induction l as [|y l IH]; intros index n Ht Hc; auto.
  simpl title_loop. rewrite (Hc y) by now left.
  replace (String.eqb (timepointId y) target) with false
    by (symmetry; apply String.eqb_neq; apply Ht; now left).
  rewrite IH by (intros z Hz; (apply Ht || apply Hc); now right).
  destruct l; simpl List.length; lia.
Qed.

Lemma title_loop_unseen_to_end l : forall index,
  (forall y, In y l -> timepointId y <> target) ->
  (forall y, In y l -> strict_eq cur (timepointId y) = false) ->
  title_loop cur target l index None = index.
Proof.
  induction l as [|y l IH]; intros index Ht Hc; auto.
  simpl title_loop. rewrite (Hc y) by now left.
  replace (String.eqb (timepointId y) target) with false
    by (symmetry; apply String.eqb_neq; apply Ht; now left).
  apply IH; intros z Hz; (apply Ht || apply Hc); now right.
Qed.

Lemma title_loop_from_current_to_end l : forall i c index ci,
  (forall y, In y l -> timepointId y <> target) ->
  nth_error l i = Some c ->
  strict_eq cur (timepointId c) = true ->
  (forall k y, k <> i -> nth_error l k = Some y ->
               strict_eq cur (timepointId y) = false) ->
  title_loop cur target l index ci = Z.of_nat (List.length l - 1 - i).
Proof.
  induction l as [|y l IH]; intros i c index ci Ht Hi Hc Hothers.
  - destruct i; discriminate.
  - simpl title_loop.
    replace (String.eqb (timepointId y) target) with false
      by (symmetry; apply String.eqb_neq; apply Ht; now left).
    destruct i as [|i]; simpl in Hi.
    + injection Hi as ->. rewrite Hc.
      rewrite title_loop_counting_to_end.
      * destruct l; simpl List.length; lia.
      * intros z Hz. apply Ht. now right.
      * intros z Hz. destruct (In_nth_error _ _ Hz) as [k Hk].
        apply (Hothers (S k) z); [lia | exact Hk].
    + rewrite (Hothers 0 y) by (simpl; auto; lia).
      assert (Hrec : forall index' ci',
                title_loop cur target l index' ci'
                = Z.of_nat (List.length (y :: l) - 1 - S i)).
      { intros index' ci'. rewrite (IH i c index' ci'); auto.
        - simpl List.length. f_equal. lia.
        - intros z Hz. apply Ht. now right.
        - intros k z Hk Hz. apply (Hothers (S k) z); [lia | exact Hz]. }
      destruct ci; apply Hrec.
Qed.

End TitleLoopWithoutTarget.

Lemma name_of_unlisted t w :
  timepointType t <> "baseline" ->
  (forall s, In s (docs (timepoints (this w))) ->
             timepointId s <> timepointId t) ->
  name t w =
  (mkWorld (this w) (console w ++ [warning_not_in_list]), Return None).
Proof.
  intros Hty Hnot. apply name_unranked; auto.
  intros Hin. apply in_map_iff in Hin. destruct Hin as (s & E & Hs).
  apply in_relevant_followups in Hs. now apply (Hnot s (proj1 Hs)).
Qed.

(** X15: [title] of a timepoint whose [timepointId] no stored record
    bears never stops early: on a store with one record per
    [timepointId] it is titled like the last entry of [all()], that is
    ["(Current)"] when the current record is the oldest one, ["(Prior)"]
    when the current record is the last but one, and without suffix
    otherwise or when there is no current record.  Unless its type is
    [baseline], its name is undefined, the warning is logged and the title
    reads ["undefined "] followed by the suffix. *)
Theorem title_of_unlisted_timepoint t w :
  unique_timepointIds (this w) ->
  (forall s, In s (all (this w)) -> timepointId s <> timepointId t) ->
  let shown :=
    if String.eqb (timepointType t) "baseline"
    then "Baseline" else "undefined" in
  (timepointType t <> "baseline" ->
   fst (title t w) =
   mkWorld (this w) (console w ++ [warning_not_in_list])) /\
  (current (this w) = None ->
   completion_of (title t) w = Return (shown ++ " ")%string) /\
  (forall c i, current (this w) = Some c ->
     nth_error (all (this w)) i = Some c ->
     completion_of (title t) w =
     Return (shown ++ " " ++
             suffix_at i (List.length (all (this w)) - 1))%string).
Proof.
  intros Huniq Hnot shown.
  pose proof (unique_ids_all _ Huniq) as Hnd.
  assert (Hnot' : forall s, In s (docs (timepoints (this w))) ->
                            timepointId s <> timepointId t)
    by (intros s Hs; apply Hnot; now apply in_all).
  assert (Htitle : forall index,
            title_loop (currentTimepointId (this w)) (timepointId t)
                       (all (this w)) (-1) None = index ->
            completion_of (title t) w
            = Return (shown ++ " " ++ states index)%string /\
            (timepointType t <> "baseline" ->
             fst (title t w) =
             mkWorld (this w) (console w ++ [warning_not_in_list]))).
  { intros index Hloop. unfold completion_of, title, bind. subst shown.
    destruct (String.eqb_spec (timepointType t) "baseline") as [E|Hne].
    - rewrite (name_baseline t w E). simpl. rewrite Hloop.
      split; [reflexivity | contradiction].
    - rewrite (name_of_unlisted t w Hne Hnot'). simpl. rewrite Hloop.
      split; reflexivity. }
  split; [|split].
  - intros Hty. now apply (Htitle _ eq_refl).
  - intros Hcur.
    destruct (Htitle (-1)%Z) as [H _]; [|exact H].
    apply title_loop_unseen_to_end; auto.
    intros y Hy. apply strict_eq_false.
    apply (proj1 (current_None _) Hcur). now apply in_all.
  - intros c i Hcur Hi.
    apply current_Some in Hcur. destruct Hcur as [_ Hid].
    destruct (Htitle (Z.of_nat (List.length (all (this w)) - 1 - i)))
      as [H _].
    + apply (title_loop_from_current_to_end _ _ _ i c); auto.
      * rewrite Hid. simpl. apply String.eqb_refl.
      * intros k y Hk Hy. apply strict_eq_false. rewrite Hid. intros E.
        injection E as E. apply Hk.
        now apply (unique_position (all (this w)) i k c y).
    + rewrite H.
      assert (Hlt : i < List.length (all (this w)))
        by (apply nth_error_Some; rewrite Hi; discriminate).
      rewrite <- (states_offset i (List.length (all (this w)) - 1)).
      destruct (Nat.ltb_spec (List.length (all (this w)) - 1) i);
        [lia | reflexivity].
Qed.

Lemma title_of_unlisted_timepoint_witness :
  let t := Studies.visit "tp-other" "followup" 50 [] in
  let w := Samples.loaded (Some "tp-base") Studies.visits in
  completion_of (title t) w = Return "undefined (Current)".
Proof.
  intros t w.
  assert (unique_timepointIds (this w)) as Huniq.
  { unfold unique_timepointIds; simpl.
    repeat constructor; simpl; intuition discriminate. }
  assert (forall s, In s (all (this w)) -> timepointId s <> timepointId t)
    as Hnot.
  { intros s Hs. simpl in Hs.
    destruct Hs as [<-|[<-|[<-|[]]]]; discriminate. }
  destruct (title_of_unlisted_timepoint t w Huniq Hnot) as (_ & _ & H).
  exact (H (with_id 0 (Studies.visit "tp-base" "baseline" 100 ["1.2.1"])) 2
           eq_refl eq_refl).
Defined.

(** ** [name] and [title] as read operations *)

Lemma name_outcome t w :
  (exists nm, name t w = (w, Return (Some nm))) \/
  name t w =
  (mkWorld (this w) (console w ++ [warning_not_in_list]), Return None).
Proof.
  unfold name. destruct (String.eqb (timepointType t) "baseline").
  - left. now eexists.
  - unfold bind, get_timepoints.
    match goal with |- context [if ?b then _ else _] => destruct b end.
    + right. reflexivity.
    + left. now eexists.
Qed.

(** X16: for any timepoint, stored or not, [name] and [title] return
    without throwing and leave the store untouched; the only trace they
    may leave is the one warning, logged exactly when [name] is
    undefined, in which case the title starts with ["undefined "]. *)
Theorem name_and_title_only_read t w :
  (exists r, completion_of (name t) w = Return r) /\
  (exists s, completion_of (title t) w = Return s) /\
  this (fst (name t w)) = this w /\
  this (fst (title t w)) = this w /\
  fst (title t w) = fst (name t w) /\
  (forall nm, completion_of (name t) w = Return (Some nm) ->
     fst (name t w) = w /\
     exists suffix, completion_of (title t) w
                    = Return (nm ++ " " ++ suffix)%string) /\
  (completion_of (name t) w = Return None ->
   console (fst (name t w)) = console w ++ [warning_not_in_list] /\
   exists suffix, completion_of (title t) w
                  = Return ("undefined " ++ suffix)%string).
Proof.
  unfold completion_of, title, bind.
  destruct (name_outcome t w) as [[nm ->] | ->]; simpl.
  - split; [eauto|]. split; [eauto|]. do 3 (split; [reflexivity|]). split.
    + intros nm' E. injection E as <-. split; eauto.
    + discriminate.
  - split; [eauto|]. split; [eauto|]. do 3 (split; [reflexivity|]). split.
    + discriminate.
    + intros _. split; eauto.
Qed.

(** ** The [timepointName] helper *)

Lemma filter_sorted {A} (R : A -> A -> Prop) (p : A -> bool) l :
  StronglySorted R l -> StronglySorted R (filter p l).
Proof.
  induction 1 as [|a l Hs IH Ha]; simpl; [constructor|].
  destruct (p a); auto. constructor; auto.
  rewrite Forall_forall in *. intros b Hb. apply Ha.
  now apply filter_In in Hb.
Qed.

(** X17: the overlay's [timepointName] helper shows nothing when there is
    no [timepointApi] and when no stored timepoint is linked to the
    study.  Otherwise, on a well-formed collection, it shows the name of
    a stored timepoint that is linked to the study and dated no earlier
    than any other timepoint linked to it; that name is always defined
    and nothing is logged. *)
Theorem timepointName_names_latest_linked api uid logged :
  wf (timepoints api) ->
  timepointName None uid logged = (logged, Return None) /\
  ((forall t, In t (docs (timepoints api)) ->
              ~ In uid (studyInstanceUids t)) ->
   timepointName (Some api) uid logged = (logged, Return None)) /\
  ((exists t, In t (docs (timepoints api)) /\ In uid (studyInstanceUids t)) ->
   exists t0 nm,
     In t0 (docs (timepoints api)) /\ In uid (studyInstanceUids t0) /\
     (forall t, In t (docs (timepoints api)) -> In uid (studyInstanceUids t) ->
                (latestDate t <= latestDate t0)%Z) /\
     name t0 (mkWorld api logged) = (mkWorld api logged, Return (Some nm)) /\
     timepointName (Some api) uid logged = (logged, Return (Some nm))).
Proof.
  intros Hwf. split; [reflexivity|].
  unfold timepointName. rewrite (study_spec api uid Hwf).
  set (p := fun t => contains (studyInstanceUids t) uid).
  assert (Hp : forall t, In t (filter p (all api)) <->
                         In t (docs (timepoints api)) /\
                         In uid (studyInstanceUids t))
    by (intros t; subst p; now rewrite filter_In, in_all, contains_In).
  split.
  - intros Hnone. rewrite filter_none; auto.
    intros t Ht. subst p. simpl.
    destruct (contains (studyInstanceUids t) uid) eqn:E; auto.
    apply contains_In in E. apply in_all in Ht. now destruct (Hnone t Ht).
  - intros (t & Ht & Hlinked).
    pose proof (filter_sorted _ p _ (all_descending api)) as Hs.
    destruct (filter p (all api)) as [|t0 rest] eqn:E.
    + exfalso. now apply (proj2 (Hp t)).
    + destruct (proj1 (Hp t0) (or_introl eq_refl)) as [Hin0 Hl0].
      destruct (name_of_stored t0 (mkWorld api logged) Hin0) as [nm Hnm].
      exists t0, nm. repeat split; auto.
      * intros t' Ht' Hl'. inversion Hs as [|? ? _ Hall]; subst.
        destruct (proj2 (Hp t') (conj Ht' Hl')) as [<-|Hr]; [lia|].
        rewrite Forall_forall in Hall. now apply Hall.
      * now rewrite Hnm.
Qed.

Lemma timepointName_names_latest_linked_witness :
  exists t0 nm,
    In t0 (docs (timepoints Studies.api)) /\
    In "1.2.3" (studyInstanceUids t0) /\
    (forall t, In t (docs (timepoints Studies.api)) ->
               In "1.2.3" (studyInstanceUids t) ->
               (latestDate t <= latestDate t0)%Z) /\
    name t0 (mkWorld Studies.api [])
    = (mkWorld Studies.api [], Return (Some nm)) /\
    timepointName (Some Studies.api) "1.2.3" [] = ([], Return (Some nm)).
Proof.
  destruct (timepointName_names_latest_linked Studies.api "1.2.3" []
              (reachable_wf _ studies_world_reachable)) as (_ & _ & H).
  apply H.
  exists (with_id 1 (Studies.visit "tp-f1" "followup" 200 ["1.2.2"; "1.2.3"])).
  simpl. auto.
Defined.

(** * Properties of the [formItem] mixin *)

Module FormItemFacts.

Import FormItem.

Lemma getForm_find c : getForm c = List.find isForm (ancestors c).
Proof.
  induction c as [f|f p IH]; simpl; auto.
  destruct (isForm p); auto.
Qed.

(** X18: [getForm()] returns the nearest enclosing component that is a
    form: a parent, a parent's parent and so on, but never the component
    itself, even when it is a form; no component between the two is a
    form, and the answer is undefined exactly when no enclosing component
    is a form. *)
Theorem getForm_is_nearest_enclosing_form c :
  (forall form, getForm c = Some form ->
     isForm form = true /\
     exists nearer further,
       ancestors c = nearer ++ form :: further /\
       forall a, In a nearer -> isForm a = false) /\
  (getForm c = None <-> forall a, In a (ancestors c) -> isForm a = false) /\
  (parent c = None -> getForm c = None).
Proof.
  rewrite getForm_find. split; [|split].
  - intros form H. split.
    + now apply find_some in H.
    + induction (ancestors c) as [|a l IH]; simpl in H; [discriminate|].
      destruct (isForm a) eqn:E.
      * injection H as <-. exists [], l. split; auto. intros x [].
      * destruct (IH H) as (l1 & l2 & -> & Hl1).
        exists (a :: l1), l2. split; auto.
        intros x [<-|Hx]; auto.
  - split.
    + intros H a Ha. now apply (find_none _ _ H).
    + intros H. induction (ancestors c) as [|a l IH]; simpl; auto.
      rewrite (H a) by now left. apply IH. intros x Hx. apply H. now right.
  - destruct c; simpl; [reflexivity | discriminate].
Qed.

Lemma getApi_unfold c :
  getApi c =
  match api c with
  | Some a => Some a
  | None =>
      if isForm c then None
      else match getForm c with
           | Some form => getApi form
           | None => None
           end
  end.
Proof.
  destruct c as [f|f p]; simpl; unfold api, isForm; simpl;
    destruct (api_ f); auto; destruct (isForm_ f); auto.
  induction p as [g|g q IH]; simpl.
  - now destruct (isForm_ g).
  - destruct (isForm_ g); auto.
Qed.

(** X19: [getApi()] answers with the component's own API when it was
    given one.  Without one, a form has no API, whatever encloses it; any
    other component takes the API given to the nearest enclosing form and
    has none when there is no enclosing form or when that form was given
    none, even if a form further out has one. *)
Theorem getApi_own_or_nearest_form c :
  getApi c =
  match api c with
  | Some a => Some a
  | None =>
      if isForm c then None
      else match getForm c with
           | Some form => api form
           | None => None
           end
  end.
Proof.
  rewrite getApi_unfold.
  destruct (api c); auto. destruct (isForm c); auto.
  destruct (getForm c) as [form|] eqn:E; auto.
  assert (Hf : isForm form = true).
  { rewrite getForm_find in E. now apply find_some in E. }
  rewrite getApi_unfold, Hf. now destruct (api form).
Qed.

Lemma toggleClass_In name flag w cls :
  In cls (classes (toggleClass name flag w)) <->
  if String.eqb cls name then flag = true else In cls (classes w).
Proof.
  unfold toggleClass; simpl. destruct flag.
  - destruct (existsb (String.eqb name) (classes w)) eqn:E.
    + destruct (String.eqb_spec cls name) as [->|Hne]; [|tauto].
      split; auto. intros _.
      apply existsb_exists in E. destruct E as (x & Hx & E).
      apply String.eqb_eq in E. now subst.
    + rewrite in_app_iff. simpl.
      destruct (String.eqb_spec cls name) as [->|Hne].
      * split; auto.
      * split; [intros [H|[H|[]]]; auto; congruence | auto].
  - rewrite filter_In, negb_true_iff.
    destruct (String.eqb_spec cls name) as [->|Hne].
    + split; [intros [_ H]; discriminate | discriminate].
    + tauto.
Qed.

Lemma error_of_message m w :
  m <> "" ->
  error (Some m) (Some w) =
  Some (mkWrapper (classes (toggleClass "state-error" true w))
                  (Some m) (visible w)).
Proof. intros H. unfold error, state. destruct m; [contradiction|auto]. Qed.

Lemma error_of_false w :
  error None (Some w) =
  Some (mkWrapper (classes (toggleClass "state-error" false w))
                  None (visible w)).
Proof. reflexivity. Qed.

(** X20: after [error(message)] on a rendered component the wrapper
    carries the class [state-error] exactly when it carries a
    [data-error] attribute, which is exactly when the message is truthy;
    the attribute then holds the message.  An empty message counts as no
    error.  Every other class and the visibility are left alone, and on a
    component that is not rendered yet the call does nothing. *)
Theorem error_keeps_class_and_attribute_in_step message w :
  let w' := error message (Some w) in
  (has_class "state-error" w' <-> truthy message = true) /\
  (error_attribute w' <> None <-> truthy message = true) /\
  (truthy message = true -> error_attribute w' = message) /\
  (forall cls, cls <> "state-error" ->
     (has_class cls w' <-> In cls (classes w))) /\
  is_visible w' = visible w /\
  error message None = None.
Proof.
  unfold error, state.
  destruct (truthy message) eqn:T; simpl.
  - split; [|split; [|split; [|split; [|split]]]]; auto.
    + rewrite (toggleClass_In "state-error" true w "state-error").
      now rewrite String.eqb_refl.
    + destruct message as [[|? ?]|]; simpl in T; try discriminate.
      split; auto. discriminate.
    + intros cls Hne. rewrite (toggleClass_In "state-error" true w cls).
      apply String.eqb_neq in Hne. now rewrite Hne.
  - split; [|split; [|split; [|split; [|split]]]]; auto.
    + rewrite (toggleClass_In "state-error" false w "state-error").
      now rewrite String.eqb_refl.
    + split; [congruence | discriminate].
    + discriminate.
    + intros cls Hne. rewrite (toggleClass_In "state-error" false w cls).
      apply String.eqb_neq in Hne. now rewrite Hne.
Qed.

End FormItemFacts.

Module FormItemValidation.

Import FormItem.

(** X21: [validate()] skips the validation -- it returns true, leaves the
    wrapper as it is (a stale error included) and does not notify the
    form -- when the component has no truthy [pathKey], has no enclosing
    form with a schema, or is not visible.  Otherwise it notifies the
    form and returns the verdict of [schema.validateOne] for the key and
    the current value; afterwards the class [state-error] and the
    [data-error] attribute are both absent when the verdict is true, and
    both present when it is false and the schema's message for the key is
    not empty. *)
Theorem validate_outcome c :
  let v := validate c in
  let needed :=
    exists form s k,
      getForm c = Some form /\ schema form = Some s /\
      pathKey c = Some k /\ k <> "" /\ is_visible (wrapper c) = true in
  (~ needed ->
   result v = true /\ wrapper_after v = wrapper c /\ validationRan v = false)
  /\
  (forall form s k,
     getForm c = Some form -> schema form = Some s ->
     pathKey c = Some k -> k <> "" -> is_visible (wrapper c) = true ->
     validationRan v = true /\
     result v = validateOne s k (value c) /\
     is_visible (wrapper_after v) = true /\
     (result v = true ->
      ~ has_class "state-error" (wrapper_after v) /\
      error_attribute (wrapper_after v) = None) /\
     (result v = false -> keyErrorMessage s k <> "" ->
      has_class "state-error" (wrapper_after v) /\
      error_attribute (wrapper_after v) = Some (keyErrorMessage s k))).
Proof.
  intros v needed. subst v needed. split.
  - intros Hnot. unfold validate.
    destruct (truthy (pathKey c)) eqn:T; simpl negb; cbv iota; [|auto].
    destruct (getForm c) as [form|] eqn:Hf; [|destruct (pathKey c); auto].
    destruct (schema form) as [s|] eqn:Hs; [|destruct (pathKey c); auto].
    destruct (pathKey c) as [k|] eqn:Hk; [|auto].
    destruct (is_visible (wrapper c)) eqn:Hv; simpl negb; cbv iota; [|auto].
    exfalso. apply Hnot. exists form, s, k. repeat split; auto.
    intros ->. discriminate.
  - intros form s k Hf Hs Hk Hne Hv. unfold validate.
    rewrite Hf, Hs, Hk, Hv.
    assert (T : truthy (Some k) = true) by (destruct k; [contradiction|auto]).
    rewrite T. simpl negb. cbv iota.
    destruct (wrapper c) as [w|] eqn:Hw; simpl in Hv; [|discriminate].
    destruct (validateOne s k (value c)) eqn:Hres; simpl negb; cbv iota;
      simpl result; simpl validationRan; simpl wrapper_after.
    + rewrite FormItemFacts.error_of_false. simpl.
      split; [reflexivity|]. split; [reflexivity|]. split; [exact Hv|].
      split; [|discriminate]. intros _. split; [|reflexivity].
      intros H.
      apply (FormItemFacts.toggleClass_In "state-error" false w) in H.
      rewrite String.eqb_refl in H. discriminate.
    + split; [reflexivity|]. split; [reflexivity|]. split.
      * unfold error, state.
        destruct (truthy (Some (keyErrorMessage s k))); exact Hv.
      * split; [discriminate|]. intros _ Hmsg.
        rewrite (FormItemFacts.error_of_message _ w Hmsg). simpl.
        split; [|reflexivity].
        apply (FormItemFacts.toggleClass_In "state-error" true w).
        now rewrite String.eqb_refl.
Qed.

End FormItemValidation.

(** * Further properties of the timepoint store *)

(** ** The rank [name] computes *)

Lemma ascending_strict l :
  StronglySorted (fun a b : Timepoint => (latestDate a <= latestDate b)%Z) l ->
  NoDup (map latestDate l) ->
  StronglySorted (fun a b => (latestDate a < latestDate b)%Z) l.
Proof.
  induction 1 as [|a l Hs IH Ha]; intros Hnd; constructor;
    inversion Hnd as [|? ? Hnot Hnd']; subst; auto.
  rewrite Forall_forall in *. intros b Hb.
  specialize (Ha b Hb).
  assert (latestDate b <> latestDate a); [|lia].
  intros E. apply Hnot. rewrite <- E. now apply in_map.
Qed.

Lemma NoDup_map_filter {A B} (f : A -> B) (p : A -> bool) l :
  NoDup (map f l) -> NoDup (map f (filter p l)).
Proof.
  induction l as [|a l IH]; simpl; auto. intros Hnd.
  inversion Hnd as [|? ? Hnot Hnd']; subst.
  destruct (p a); simpl; auto. constructor; auto.
  intros Hin. apply Hnot. apply in_map_iff in Hin.
  destruct Hin as (x & E & Hx). apply filter_In in Hx.
  rewrite <- E. apply in_map. tauto.
Qed.

Lemma filter_all_true {A} (p : A -> bool) l :
  (forall x, In x l -> p x = true) -> filter p l = l.
Proof.
  induction l as [|a l IH]; simpl; auto. intros H.
  rewrite (H a) by now left. f_equal. apply IH. intros x Hx. apply H. now right.
Qed.

Lemma filter_filter {A} (p q : A -> bool) l :
  filter q (filter p l) = filter (fun x => p x && q x) l.
Proof.
  induction l as [|a l IH]; simpl; auto.
  destruct (p a); simpl; [destruct (q a)|]; now rewrite IH.
Qed.

(** X22: on a store with one record per [timepointId] and pairwise
    distinct dates, the number in the name of a stored follow-up is one
    more than the number of stored records of the same patient and type
    that are dated strictly before it. *)
Theorem name_counts_earlier_peers t w :
  unique_timepointIds (this w) ->
  NoDup (map latestDate (docs (timepoints (this w)))) ->
  In t (docs (timepoints (this w))) ->
  timepointType t <> "baseline" ->
  name t w =
  (w, Return (Some ("Follow-up " ++
                    number_to_string
                      (Z.of_nat (S (earlier_peers (this w) t))))%string)).
Proof.
  intros Huniq Hdates Hin Hty.
  set (sel := SelPatientAndType (patientId t) (timepointType t)).
  set (peers := filter (matches sel) (docs (timepoints (this w)))).
  assert (Hfol : relevant_followups (this w) t = sort_docs LatestDateAsc peers)
    by reflexivity.
  assert (Hstrict : StronglySorted
                      (fun a b => (latestDate a < latestDate b)%Z)
                      (relevant_followups (this w) t)).
  { apply ascending_strict; [apply relevant_followups_ascending|].
    rewrite Hfol. eapply Permutation_NoDup.
    - apply Permutation_map. symmetry. apply sort_docs_perm.
    - now apply NoDup_map_filter. }
  assert (Hmem : In t (relevant_followups (this w) t))
    by (apply in_relevant_followups; auto).
  destruct (in_split _ _ Hmem) as (l1 & l2 & Hsplit).
  rewrite Hsplit in Hstrict.
  destruct (sorted_split _ _ _ _ Hstrict) as [H1 H2].
  assert (Hcount : earlier_peers (this w) t = List.length l1).
  { unfold earlier_peers.
    rewrite <- (filter_filter (matches sel)
                  (fun q => Z.ltb (latestDate q) (latestDate t))).
    fold peers.
    rewrite <- (sort_docs_length LatestDateAsc), sort_docs_filter, <- Hfol.
    rewrite Hsplit, filter_app. simpl. rewrite Z.ltb_irrefl.
    rewrite filter_all_true
      by (intros x Hx; apply Z.ltb_lt; now apply H1).
    rewrite filter_none
      by (intros x Hx; apply Z.ltb_ge; specialize (H2 x Hx); lia).
    now rewrite app_nil_r. }
  rewrite Hcount. apply name_ranked; auto.
  exists (List.length l1). split; [reflexivity|].
  rewrite Hsplit, map_app. simpl. split.
  - rewrite nth_error_app2 by (rewrite length_map; lia).
    rewrite length_map, Nat.sub_diag. reflexivity.
  - intros j Hj E.
    rewrite nth_error_app1 in E by (rewrite length_map; lia).
    rewrite nth_error_map in E.
    destruct (nth_error l1 j) as [y|] eqn:Hy; [|discriminate].
    injection E as E. apply nth_error_In in Hy.
    assert (Hyin : In y (docs (timepoints (this w)))).
    { assert (In y (relevant_followups (this w) t)) as Hy'
        by (rewrite Hsplit; apply in_or_app; now left).
      now apply in_relevant_followups in Hy'. }
    assert (y = t)
      by (apply (NoDup_map_inj timepointId (docs (timepoints (this w))));
          auto).
    subst y. specialize (H1 t Hy). lia.
Qed.

Lemma name_counts_earlier_peers_witness :
  let t := with_id 2 (Studies.visit "tp-f2" "followup" 300 ["1.2.3"]) in
  name t Studies.world =
  (Studies.world,
   Return (Some ("Follow-up " ++
                 number_to_string
                   (Z.of_nat (S (earlier_peers (this Studies.world) t))))%string)).
Proof.
  intros t. apply name_counts_earlier_peers.
  - unfold unique_timepointIds; simpl.
    repeat constructor; simpl; intuition discriminate.
  - simpl. repeat constructor; simpl; intuition discriminate.
  - simpl. auto.
  - discriminate.
Defined.

(** ** Looking up the current record *)

(** X23: on a store with one record per [timepointId], [current()]
    returns a record exactly when that record is stored and bears the
    configured [currentTimepointId]. *)
Theorem current_is_the_designated_record api c :
  unique_timepointIds api ->
  (current api = Some c <->
   In c (docs (timepoints api)) /\
   currentTimepointId api = Some (timepointId c)).
Proof.
  intros Huniq. split; [apply current_Some|].
  intros [Hin Hid].
  destruct (current api) as [c'|] eqn:Hc.
  - destruct (current_Some _ _ Hc) as [Hin' Hid'].
    f_equal.
    apply (NoDup_map_inj timepointId (docs (timepoints api))); auto.
    congruence.
  - exfalso. now apply (proj1 (current_None api) Hc c Hin).
Qed.

Lemma current_is_the_designated_record_witness :
  let c := with_id 2 (Studies.visit "tp-f2" "followup" 300 ["1.2.3"]) in
  current Studies.api = Some c <->
  In c (docs (timepoints Studies.api)) /\
  currentTimepointId Studies.api = Some (timepointId c).
Proof.
  intros c. apply current_is_the_designated_record.
  unfold unique_timepointIds; simpl.
  repeat constructor; simpl; intuition discriminate.
Defined.

(** [setConfiguration] does not merge two [dataExchange] objects: the one
    given last stands alone. *)
Lemma setConfiguration_shallow cfg config :
  (dataExchange config = None -> setConfiguration cfg config = cfg) /\
  (dataExchange config <> None ->
   getConfiguration (setConfiguration cfg config) = config).
Proof.
  unfold setConfiguration, getConfiguration.
  destruct cfg as [d], config as [[de|]]; simpl; split; congruence.
Qed.
